(** * ajson: JSONPath tokenizer and evaluator (jsonpath.go)

    A shallow embedding of [ParseJSONPath], [recursiveChildren] and
    [JSONPath], together with the properties of the tokenizer and of the
    command fold that the specification states.

    Go's [int] is the 64-bit signed integer (the source assigns
    [math.MaxInt64] to an [int]); it is a [Z] with the wrap-around written
    out.  Go strings and byte slices are [string]s, one [ascii] per byte.
    Go's [(value, error)] results are pairs whose second component is an
    [option Error], [None] standing for [nil]. *)

From Stdlib Require Import ZArith List String Ascii Bool Lia Permutation.
From Stdlib Require Import Numbers.DecimalString Numbers.DecimalZ Numbers.DecimalPos.
Import ListNotations.

#[local] Open Scope string_scope.
#[local] Open Scope list_scope.
#[local] Open Scope Z_scope.
#[local] Set Warnings "-register-all".

(** ** Machine integers *)

Module Int.

Definition MaxInt64 : Z := 9223372036854775807.
Definition MinInt64 : Z := -9223372036854775808.

Definition in_range (z : Z) : bool := (MinInt64 <=? z) && (z <=? MaxInt64).

(** Two's complement wrap-around of a 64-bit signed integer. *)
Definition wrap (z : Z) : Z := (z + 2 ^ 63) mod 2 ^ 64 - 2 ^ 63.

(** [i += step] on [int]. *)
Definition add (a b : Z) : Z := wrap (a + b).

End Int.

(** ** The parts of Go's [strings] and [strconv] that the source calls *)

Module strings.

(** [strings.Contains(s, string(c))] for a one-byte separator. *)
Fixpoint Contains (s : string) (c : ascii) : bool :=
  match s with
  | EmptyString => false
  | String a s' => Ascii.eqb a c || Contains s' c
  end.

(** [strings.HasPrefix(s, prefix)]. *)
Definition HasPrefix (s prefix : string) : bool := String.prefix prefix s.

(** [strings.Split(s, string(sep))] for a one-byte separator: the fields
    between the separators, in order; never the empty list. *)
Fixpoint Split (s : string) (sep : ascii) : list string :=
  match s with
  | EmptyString => [EmptyString]
  | String a s' =>
      if Ascii.eqb a sep then EmptyString :: Split s' sep
      else match Split s' sep with
           | [] => [String a EmptyString]
           | field :: fields => String a field :: fields
           end
  end.

End strings.

Module strconv.

(** [strconv.Itoa]: the decimal representation, with a leading [-] for a
    negative number. *)
Definition Itoa (i : Z) : string := NilZero.string_of_int (Z.to_int i).

(** [strconv.Atoi]: an optional sign, then a non-empty run of decimal
    digits; the value has to fit an [int].  [None] is a non-nil error. *)
Definition Atoi (s : string) : option Z :=
  match s with
  | EmptyString => None
  | String c rest =>
      let digits := if Ascii.eqb c "-" || Ascii.eqb c "+" then rest else s in
      match NilZero.uint_of_string digits with
      | None => None
      | Some d =>
          let n := Z.of_uint d in
          let v := if Ascii.eqb c "-" then - n else n in
          if Int.in_range v then Some v else None
      end
  end.

End strconv.

(** ** Errors *)

(** Modelled from the spec: the error values of the package, which are
    built by [errorEOF], [errorSymbol] and [errorRequest] outside
    jsonpath.go.  The specification names two families, parse errors
    (unterminated bracket or quoted key, unexpected symbol, malformed slice)
    and document errors (a failure of the document parser); [io_EOF] is Go's
    [io.EOF], which the cursor reports at the end of the input. *)
Inductive Error : Type :=
| io_EOF
| errorEOF
| errorSymbol
| errorRequest
| DocumentError (code : Z).

Definition Error_eqb (a b : Error) : bool :=
  match a, b with
  | io_EOF, io_EOF | errorEOF, errorEOF
  | errorSymbol, errorSymbol | errorRequest, errorRequest => true
  | DocumentError x, DocumentError y => x =? y
  | _, _ => false
  end.

Definition isParseError (e : Error) : bool :=
  match e with
  | errorEOF | errorSymbol | errorRequest => true
  | io_EOF | DocumentError _ => false
  end.

(** ** The byte cursor *)

(** Modelled from the spec: the single-byte constants that the tokenizer
    dispatches on, declared outside jsonpath.go (path grammar surface [$],
    [.], [[key]], [['key']]; the quoted keys of the examples are written
    with the single quote, as in [$['a']['b']]). *)
Definition dollar : ascii := "$".
Definition dot : ascii := ".".
Definition bracketL : ascii := "[".
Definition bracketR : ascii := "]".
Definition quote : ascii := "'".

Definition zero_byte : ascii := Ascii.zero.

Record buffer : Type := mkBuffer {
  data : string;
  length : Z;
  index : Z
}.

Definition set_index (b : buffer) (i : Z) : buffer :=
  {| data := data b; length := length b; index := i |}.

(** [b.data[i]] for an index inside the buffer. *)
Definition byte_at (b : buffer) (i : Z) : ascii :=
  match String.get (Z.to_nat i) (data b) with
  | Some c => c
  | None => zero_byte
  end.

(** [string(b.data[start:stop])]. *)
Definition slice_of (b : buffer) (start stop : Z) : string :=
  String.substring (Z.to_nat start) (Z.to_nat (stop - start)) (data b).

(** Modelled from the spec: the cursor over the path's bytes with its peek,
    advance and scan-until-delimiter primitives, which live outside
    jsonpath.go.  [newBuffer] starts at the first byte; [current] peeks and
    reports [io.EOF] past the end; [step] advances by one byte unless that
    would leave the input; [next] advances and peeks; [skip] and [skipAny]
    scan forward from the current byte to the first delimiter and stop on
    it, reporting [io.EOF] with the cursor at the end when there is none;
    [string] scans from the byte after an opening quote to the closing
    one. *)
Definition newBuffer (body : string) : buffer :=
  {| data := body; length := Z.of_nat (String.length body); index := 0 |}.

Definition current (b : buffer) : ascii * option Error :=
  if index b <? length b then (byte_at b (index b), None)
  else (zero_byte, Some io_EOF).

Definition step (b : buffer) : buffer * option Error :=
  if index b + 1 <? length b then (set_index b (index b + 1), None)
  else (b, Some io_EOF).

Definition next (b : buffer) : buffer * ascii * option Error :=
  match step b with
  | (b', Some err) => (b', zero_byte, Some err)
  | (b', None) => (b', byte_at b' (index b'), None)
  end.

(** [for ; b.index < b.length; b.index++] with the test [stop] on the
    current byte; [n] bounds the iterations by the bytes that are left. *)
Fixpoint scan (n : nat) (stop : ascii -> bool) (b : buffer) : buffer * option Error :=
  match n with
  | O => (b, Some io_EOF)
  | S n' =>
      if index b <? length b then
        if stop (byte_at b (index b)) then (b, None)
        else scan n' stop (set_index b (index b + 1))
      else (b, Some io_EOF)
  end.

Definition skipAny (b : buffer) (s : ascii -> bool) : buffer * option Error :=
  scan (Z.to_nat (length b - index b)) s b.

Definition skip (b : buffer) (s : ascii) : buffer * option Error :=
  skipAny b (Ascii.eqb s).

Definition buf_string (b : buffer) (search : ascii) : buffer * option Error :=
  match step b with
  | (b', Some _) => (b', Some errorEOF)
  | (b', None) =>
      match skip b' search with
      | (b'', Some _) => (b'', Some errorEOF)
      | (b'', None) => (b'', None)
      end
  end.

(** ** ParseJSONPath *)

(** [childEnd = map[byte]bool{dot: true, bracketL: true}]. *)
Definition childEnd (c : ascii) : bool := Ascii.eqb c dot || Ascii.eqb c bracketL.

(** What one turn of the [for] loop leaves behind: the function's return
    values, or the cursor and the commands for the next turn. *)
Inductive turn : Type :=
| Done (result : list string) (err : option Error)
| Again (buf : buffer) (result : list string).

(** The end of the loop body, [err = buf.step()]: the loop is left at the
    end of the input with [err] reset to [nil]. *)
Definition advance (buf : buffer) (result : list string) : turn :=
  match step buf with
  | (_, Some err) => Done result (if Error_eqb err io_EOF then None else Some err)
  | (buf', None) => Again buf' result
  end.

Definition parseTurn (buf : buffer) (result : list string) : turn :=
  match current buf with
  | (_, Some err) => Done result (Some err)
  | (b, None) =>
      if Ascii.eqb b dollar then
        advance buf (result ++ ["$"])
      else if Ascii.eqb b dot then
        let start := index buf in
        match next buf with
        | (buf, _, Some _) =>
            (* both [break]s leave the switch; [err] is overwritten below *)
            advance buf result
        | (buf, b, None) =>
            if Ascii.eqb b dot then
              advance (set_index buf (index buf - 1)) (result ++ [".."])
            else
              match skipAny buf childEnd with
              | (buf, err) =>
                  let stop := index buf in
                  match err with
                  | Some io_EOF =>
                      let stop := length buf in
                      advance buf
                        (if start + 1 <? stop
                         then result ++ [slice_of buf (start + 1) stop]
                         else result)
                  | Some _ =>
                      advance (set_index buf (index buf - 1)) result
                  | None =>
                      let buf := set_index buf (index buf - 1) in
                      advance buf
                        (if start + 1 <? stop
                         then result ++ [slice_of buf (start + 1) stop]
                         else result)
                  end
              end
        end
      else if Ascii.eqb b bracketL then
        match next buf with
        | (_, _, Some _) => Done [] (Some errorEOF)
        | (buf, b, None) =>
            let start := index buf in
            if Ascii.eqb b quote then
              let start := start + 1 in
              match buf_string buf quote with
              | (_, Some _) => Done [] (Some errorEOF)
              | (buf, None) =>
                  let stop := index buf in
                  match next buf with
                  | (_, _, Some _) => Done [] (Some errorEOF)
                  | (buf, b, None) =>
                      if negb (Ascii.eqb b bracketR) then Done [] (Some errorSymbol)
                      else advance buf (result ++ [slice_of buf start stop])
                  end
              end
            else
              match skip buf bracketR with
              | (_, Some _) => Done [] (Some errorEOF)
              | (buf, None) =>
                  let stop := index buf in
                  advance buf (result ++ [slice_of buf start stop])
              end
        end
      else Done [] (Some errorSymbol)
  end.

(** The [for] loop; [None] when [fuel] turns were not enough. *)
Fixpoint parseLoop (fuel : nat) (buf : buffer) (result : list string)
  : option (list string * option Error) :=
  match fuel with
  | O => None
  | S fuel' =>
      match parseTurn buf result with
      | Done result err => Some (result, err)
      | Again buf' result' => parseLoop fuel' buf' result'
      end
  end.

(** Every turn moves the cursor forward, so one turn per byte and one more
    are enough ([ParseJSONPath_total] below). *)
Definition ParseJSONPath (path : string) : option (list string * option Error) :=
  parseLoop (S (String.length path)) (newBuffer path) [].

(** ** Nodes *)

(** Modelled from the spec: the node tree, which is declared outside
    jsonpath.go.  A node is a scalar or a container (array or object); a
    container maps string keys to its children, kept here in natural order
    (key insertion order for an object, ascending index for an array, whose
    keys are the decimal indices 0, 1, ...).  [scalar] is the JSON value of
    a leaf; the evaluator never looks at it.  The entries of a result are
    references into this tree; here they are the subtrees themselves. *)
Inductive scalar : Type :=
| Null
| Boolean (b : bool)
| Numeric (n : Z)
| Text (s : string).

Inductive Node : Type :=
| Leaf (value : scalar)
| Array (children : list (string * Node))
| Object (children : list (string * Node)).

Definition isContainer (n : Node) : bool :=
  match n with
  | Leaf _ => false
  | Array _ | Object _ => true
  end.

Definition IsArray (n : Node) : bool :=
  match n with
  | Array _ => true
  | _ => false
  end.

Definition children (n : Node) : list (string * Node) :=
  match n with
  | Leaf _ => []
  | Array kids | Object kids => kids
  end.

(** [value, ok := m[key]] on the children map. *)
Fixpoint lookup (key : string) (kids : list (string * Node)) : option Node :=
  match kids with
  | [] => None
  | (k, v) :: kids' => if String.eqb k key then Some v else lookup key kids'
  end.

Definition child (n : Node) (key : string) : option Node := lookup key (children n).

(** [n.inheritors()]: the direct children in natural order. *)
Definition inheritors (n : Node) : list Node := map snd (children n).

(** The array node that holds [elems] under the keys "0", "1", ... *)
Fixpoint indexed (i : Z) (elems : list Node) : list (string * Node) :=
  match elems with
  | [] => []
  | e :: elems' => (strconv.Itoa i, e) :: indexed (i + 1) elems'
  end.

Definition mkArray (elems : list Node) : Node := Array (indexed 0 elems).

(** ** recursiveChildren *)

(** The recursion runs over the children of the node itself, which is what
    makes it structural; [recursiveChildren_eq] below restates it as the
    source has it, with [result] the container children and [temp] the
    result followed by the lists of its elements. *)
Fixpoint recursiveChildren (node : Node) : list Node :=
  let result :=
    if isContainer node then filter isContainer (inheritors node) else [] in
  let below :=
    match node with
    | Leaf _ => []
    | Array kids | Object kids =>
        flat_map (fun kv =>
          if isContainer (snd kv) then recursiveChildren (snd kv) else []) kids
    end in
  result ++ below.

(** ** JSONPath *)

(** The inner loop of the slice command on one array,
    [for i := from; i < to; i += step]; [None] when [fuel] turns were not
    enough. *)
Fixpoint sliceLoop (fuel : nat) (element : Node) (i to step : Z)
    (temporary : list Node) : option (list Node) :=
  match fuel with
  | O => None
  | S fuel' =>
      if i <? to then
        match child element (strconv.Itoa i) with
        | Some value =>
            sliceLoop fuel' element (Int.add i step) to step (temporary ++ [value])
        | None => Some temporary
        end
      else Some temporary
  end.

(** [for _, element := range result] of the slice command. *)
Fixpoint sliceRange (fuel : nat) (result : list Node) (from to step : Z)
    (temporary : list Node) : option (list Node) :=
  match result with
  | [] => Some temporary
  | element :: rest =>
      if IsArray element then
        match sliceLoop fuel element from to step temporary with
        | None => None
        | Some temporary' => sliceRange fuel rest from to step temporary'
        end
      else sliceRange fuel rest from to step temporary
  end.

(** The bounds of a slice command from its fields [keys]; [inl] is
    [return nil, errorRequest()].  The fields of a command with a colon are
    at least two ([Split_Contains] below), so [keys[0]] and [keys[1]]
    exist. *)
Definition sliceBounds (keys : list string) : Error + (Z * Z * Z) :=
  if (3 <? Z.of_nat (List.length keys)) then inl errorRequest
  else
    let k0 := nth 0 keys EmptyString in
    let k1 := nth 1 keys EmptyString in
    match (if String.eqb k0 EmptyString then Some 0 else strconv.Atoi k0) with
    | None => inl errorRequest
    | Some from =>
        match (if String.eqb k1 EmptyString then Some Int.MaxInt64
               else strconv.Atoi k1) with
        | None => inl errorRequest
        | Some to =>
            match (if (Z.of_nat (List.length keys) =? 3)
                      && negb (String.eqb (nth 2 keys EmptyString) EmptyString)
                   then strconv.Atoi (nth 2 keys EmptyString) else Some 1) with
            | None => inl errorRequest
            | Some step => inr (from, to, step)
            end
        end
    end.

(** The key and union command on the current result. *)
Definition byKeys (keys : list string) (result : list Node) : list Node :=
  flat_map (fun key =>
    flat_map (fun element =>
      if isContainer element then
        match child element key with
        | Some value => [value]
        | None => []
        end
      else []) result) keys.

(** One turn of [for i, cmd := range commands]: [None] when the slice loop
    ran out of fuel, [inl] for [return nil, err], [inr] for the new
    result. *)
Definition command (fuel : nat) (root : Node) (i : nat) (cmd : string)
    (result : list Node) : option (Error + list Node) :=
  if String.eqb cmd "$" then
    Some (inr (if Nat.eqb i 0 then result ++ [root] else result))
  else if String.eqb cmd ".." then
    let temporary := flat_map recursiveChildren result in
    Some (inr (result ++ temporary))
  else if String.eqb cmd "*" then
    Some (inr (flat_map inheritors result))
  else if strings.Contains cmd ":" then
    match sliceBounds (strings.Split cmd ":") with
    | inl err => Some (inl err)
    | inr (from, to, step) =>
        match sliceRange fuel result from to step [] with
        | None => None
        | Some temporary => Some (inr temporary)
        end
    end
  else if strings.HasPrefix cmd "?(" then
    Some (inr result)
  else
    Some (inr (byKeys (strings.Split cmd ",") result)).

(** The fold of the commands over the working result. *)
Fixpoint commandsLoop (fuel : nat) (root : Node) (i : nat) (commands : list string)
    (result : list Node) : option (list Node * option Error) :=
  match commands with
  | [] => Some (result, None)
  | cmd :: rest =>
      match command fuel root i cmd result with
      | None => None
      | Some (inl err) => Some ([], Some err)
      | Some (inr result') => commandsLoop fuel root (S i) rest result'
      end
  end.

(** The calls to the document parser are the one effect of [JSONPath]: a
    computation carries the log of the documents handed to it. *)
Definition Log : Type := list string.
Definition M (A : Type) : Type := Log -> A * Log.

Definition ret {A : Type} (a : A) : M A := fun log => (a, log).
Definition bind {A B : Type} (m : M A) (k : A -> M B) : M B :=
  fun log => let (a, log') := m log in k a log'.

Notation "x <- m ;; k" := (bind m (fun x => k))
  (at level 61, m at next level, right associativity).

Definition returned {A : Type} (m : M A) : A := fst (m []).
Definition parsed {A : Type} (m : M A) : Log := snd (m []).

Section JSONPath.

(** Modelled from the spec: the document parser, an external entry point
    that turns the bytes of a document into its root node or fails. *)
Variable Unmarshal : string -> Node + Error.

Definition callUnmarshal (data : string) : M (Node + Error) :=
  fun log => (Unmarshal data, log ++ [data]).

(** [None] stands for a run that [fuel] turns of a slice loop did not
    finish. *)
Definition JSONPath (fuel : nat) (data : string) (path : string)
  : M (option (list Node * option Error)) :=
  match ParseJSONPath path with
  | None => ret None
  | Some (_, Some err) => ret (Some ([], Some err))
  | Some (commands, None) =>
      parse <- callUnmarshal data ;;
      match parse with
      | inr err => ret (Some ([], Some err))
      | inl root => ret (commandsLoop fuel root 0 commands [])
      end
  end.

End JSONPath.

(** ** Induction on the node tree *)

Section Node_induction.

Variable P : Node -> Prop.
Hypothesis P_Leaf : forall value, P (Leaf value).
Hypothesis P_Array : forall kids, Forall (fun kv => P (snd kv)) kids -> P (Array kids).
Hypothesis P_Object : forall kids, Forall (fun kv => P (snd kv)) kids -> P (Object kids).

Fixpoint Node_tree_ind (n : Node) : P n :=
  let fix all (kids : list (string * Node)) : Forall (fun kv => P (snd kv)) kids :=
    match kids with
    | [] => Forall_nil _
    | kv :: kids' => Forall_cons kv (Node_tree_ind (snd kv)) (all kids')
    end in
  match n with
  | Leaf value => P_Leaf value
  | Array kids => P_Array kids (all kids)
  | Object kids => P_Object kids (all kids)
  end.

End Node_induction.

(** ** Specification-side definitions and documents *)

(** The direct container children of a node, in natural order: [result]
    after the first loop of [recursiveChildren]. *)
Definition containerChildren (node : Node) : list Node :=
  if isContainer node then filter isContainer (inheritors node) else [].

(** The list in the order the specification calls pre-order: every direct
    container child immediately followed by its own list. *)
Fixpoint preorderContainers (node : Node) : list Node :=
  match node with
  | Leaf _ => []
  | Array kids | Object kids =>
      flat_map (fun kv =>
        if isContainer (snd kv) then snd kv :: preorderContainers (snd kv) else []) kids
  end.

(** The object [{"a":{"b":{}},"c":[]}]. *)
Definition nested_then_sibling : Node :=
  Object [("a", Object [("b", Object [])]); ("c", Array [])].

(** An array node is well indexed when its children sit under the keys
    "0", "1", ... in this order, as the document parser builds them. *)
Definition wellIndexed (element : Node) : Prop :=
  children element = indexed 0 (inheritors element).

(** The number of indices [from], [from + step], ... below both [to] and
    the length [len], for a positive [step]. *)
Definition sliceCount (from to step len : Z) : nat :=
  Z.to_nat ((Z.min to len - from + step - 1) / step).

(** The elements of [elems] at the indices [from], [from + step], ... that
    are below [to], in this order. *)
Definition sliceSpec (elems : list Node) (from to step : Z) : list Node :=
  flat_map (fun k =>
      match nth_error elems (Z.to_nat (from + Z.of_nat k * step)) with
      | Some value => [value]
      | None => []
      end)
    (seq 0 (sliceCount from to step (Z.of_nat (List.length elems)))).

(** The documents of the examples and a document parser that yields a
    given tree. *)
Definition num (n : Z) : Node := Leaf (Numeric n).

Definition parsesTo (root : Node) : string -> Node + Error := fun _ => inl root.

(** [{"a":[10,20,30,40,50]}] *)
Definition doc_array : Node :=
  Object [("a", mkArray [num 10; num 20; num 30; num 40; num 50])].

(** [{"a":{"x":1,"y":2,"z":3}}] *)
Definition doc_keys : Node :=
  Object [("a", Object [("x", num 1); ("y", num 2); ("z", num 3)])].

(** [{"a":{"b":{"price":5},"c":[{"price":7}]}}] *)
Definition doc_prices : Node :=
  Object [("a", Object [("b", Object [("price", num 5)]);
                        ("c", mkArray [Object [("price", num 7)]])])].

(** [{"a":{"b":1}}] *)
Definition doc_nested : Node := Object [("a", Object [("b", num 1)])].

(** A command passes the validation of the evaluator when it is no slice
    command or its fields give bounds. *)
Definition validSlice (cmd : string) : bool :=
  if strings.Contains cmd ":" then
    match sliceBounds (strings.Split cmd ":") with
    | inr _ => true
    | inl _ => false
    end
  else true.

(** A document parser that rejects every document. *)
Definition rejects (code : Z) : string -> Node + Error := fun _ => inr (DocumentError code).

(** The commands that reach the [default] case of the switch: none of the
    earlier cases takes them. *)
Definition isKeyCommand (cmd : string) : bool :=
  negb (String.eqb cmd "$") && negb (String.eqb cmd "..") && negb (String.eqb cmd "*")
  && negb (strings.Contains cmd ":") && negb (strings.HasPrefix cmd "?(").

(** What one node gives for one key. *)
Definition keyMatch (key : string) (element : Node) : list Node :=
  if isContainer element then
    match child element key with
    | Some value => [value]
    | None => []
    end
  else [].

(** A tree fits [fuel] when every array in it is well indexed and has fewer
    than [fuel] elements: the trees the document parser builds, with a bound
    on their widest array. *)
Fixpoint fits (fuel : nat) (n : Node) : Prop :=
  match n with
  | Leaf _ => True
  | Array kids =>
      wellIndexed (Array kids) /\ (List.length kids < fuel)%nat
      /\ fold_right (fun kv rest => fits fuel (snd kv) /\ rest) True kids
  | Object kids =>
      fold_right (fun kv rest => fits fuel (snd kv) /\ rest) True kids
  end.

(** A command keeps the slice loop moving when it is no slice command, or
    its fields are malformed, or its step is not 0. *)
Definition movingSlice (cmd : string) : bool :=
  if strings.Contains cmd ":" then
    match sliceBounds (strings.Split cmd ":") with
    | inr (_, _, step) => negb (step =? 0)
    | inl _ => true
    end
  else true.

(** ** Descendants *)

(** The nodes of the tree of [root]: the root itself and, with a node, its
    direct children. *)
Inductive within (root : Node) : Node -> Prop :=
| within_root : within root root
| within_child (n c : Node) : within root n -> In c (inheritors n) -> within root c.

(** The proper descendants of a node: its direct children and, with a
    descendant, that one's direct children. *)
Inductive below (n : Node) : Node -> Prop :=
| below_child (c : Node) : In c (inheritors n) -> below n c
| below_deeper (c d : Node) : below n c -> In d (inheritors c) -> below n d.

(** ** Bytes of a string *)

(** Every byte of [s] passes the test [p]. *)
Fixpoint allBytes (p : ascii -> bool) (s : string) : bool :=
  match s with
  | EmptyString => true
  | String a s' => p a && allBytes p s'
  end.

(** The decimal digits ['0'] to ['9']. *)
Definition isDigit (c : ascii) : bool :=
  ((48 <=? N_of_ascii c) && (N_of_ascii c <=? 57))%N.

(** The list of an optional node. *)
Definition optionNode (o : option Node) : list Node :=
  match o with
  | Some value => [value]
  | None => []
  end.

(** The elements of [elems] at the indices [from], [from + step], ... down
    to the last one that is not negative, for a negative [step]. *)
Definition sliceDownSpec (elems : list Node) (from step : Z) : list Node :=
  flat_map (fun k => optionNode (nth_error elems (Z.to_nat (from + Z.of_nat k * step))))
    (seq 0 (S (Z.to_nat (from / (- step))))).

(** ** The grammar of paths *)

(** The segments that the tokenizer reads: the root [$], a child [.name],
    a bracket with raw content [[raw]] and a bracket with a quoted key
    [['key']]. *)
Inductive segment : Type :=
| Root
| Child (name : string)
| Bracket (raw : string)
| Quoted (key : string).

Definition render (s : segment) : string :=
  match s with
  | Root => String dollar EmptyString
  | Child name => String dot name
  | Bracket raw => String bracketL (raw ++ String bracketR EmptyString)
  | Quoted key =>
      String bracketL (String quote (key ++ String quote (String bracketR EmptyString)))
  end.

Fixpoint renderAll (segs : list segment) : string :=
  match segs with
  | [] => EmptyString
  | s :: segs' => (render s ++ renderAll segs')%string
  end.

Definition startsWith (c : ascii) (s : string) : bool :=
  match s with
  | EmptyString => false
  | String a _ => Ascii.eqb a c
  end.

(** The first byte of [s] passes the test [p]. *)
Definition startsWith_any (p : ascii -> bool) (s : string) : bool :=
  match s with
  | EmptyString => false
  | String a _ => p a
  end.

(** The commands of a segment that is followed by the text [follow]: a
    child with an empty name is the recursive descent when a dot follows,
    and nothing otherwise. *)
Definition emit (s : segment) (follow : string) : list string :=
  match s with
  | Root => ["$"]
  | Child name =>
      if String.eqb name EmptyString
      then (if startsWith dot follow then [".."] else [])
      else [name]
  | Bracket raw => [raw]
  | Quoted key => [key]
  end.

Fixpoint emitAll (segs : list segment) (follow : string) : list string :=
  match segs with
  | [] => []
  | s :: segs' => emit s (renderAll segs' ++ follow)%string ++ emitAll segs' follow
  end.

(** A segment is read back as itself when a child name holds no dot and no
    opening bracket and is followed by one of them or by the end of the
    path, a raw bracket content holds no closing bracket and does not start
    with a quote, and a quoted key holds no quote. *)
Definition readable (s : segment) (follow : string) : bool :=
  match s with
  | Root => true
  | Child name =>
      allBytes (fun c => negb (childEnd c)) name
      && (String.eqb follow EmptyString || startsWith dot follow
          || startsWith bracketL follow)
  | Bracket raw => negb (strings.Contains raw bracketR) && negb (startsWith quote raw)
  | Quoted key => negb (strings.Contains key quote)
  end.

Fixpoint readableAll (segs : list segment) (follow : string) : bool :=
  match segs with
  | [] => true
  | s :: segs' =>
      readable s (renderAll segs' ++ follow)%string && readableAll segs' follow
  end.

(** The text of [s] from position [n] on. *)
Fixpoint drop (n : nat) (s : string) : string :=
  match n, s with
  | O, _ => s
  | S n', String _ s' => drop n' s'
  | S _, EmptyString => EmptyString
  end.

(** The cursor over [body] at position [k]. *)
Definition cursorAt (body : string) (k : nat) : buffer :=
  {| data := body; length := Z.of_nat (String.length body); index := Z.of_nat k |}.

(** ** Dotted paths *)

(** A name that a dotted path can carry as a plain key: not empty, without
    dot and opening bracket, and taken by the key case of the evaluator as
    one key. *)
Definition plainName (name : string) : bool :=
  negb (String.eqb name EmptyString)
  && allBytes (fun c => negb (childEnd c)) name
  && isKeyCommand name
  && negb (strings.Contains name ",").

(** The node reached from [n] by following the keys [names], if every step
    finds a container with that key. *)
Fixpoint descend (n : Node) (names : list string) : list Node :=
  match names with
  | [] => [n]
  | name :: names' =>
      match (if isContainer n then child n name else None) with
      | Some value => descend value names'
      | None => []
      end
  end.

(** ** Slices, for every step but 0 *)

(** The walk of the specification's words, "from [from] toward [to]
    (exclusive) stepping by [step]": an index is taken while it lies before
    [to] in the direction of the step. *)
Definition towardTo (i to step : Z) : bool :=
  if 0 <? step then i <? to
  else if step <? 0 then to <? i
  else false.

Fixpoint sliceToward (turns : nat) (elems : list Node) (i to step : Z) : list Node :=
  match turns with
  | O => []
  | S turns' =>
      if towardTo i to step then
        match (if 0 <=? i then nth_error elems (Z.to_nat i) else None) with
        | Some value => value :: sliceToward turns' elems (i + step) to step
        | None => []
        end
      else []
  end.

(** What the slice loop collects from the elements [elems] of a
    well-indexed array, for a step other than 0.  With a positive step: the
    elements at [from], [from + step], ... below [to], and nothing for a
    negative [from].  With a negative step: nothing unless
    [0 <= from < to] and [from] is an index of the array, and then the
    elements at [from], [from + step], ... down to the last index that is
    not negative, whatever [to] is. *)
Definition sliceResult (elems : list Node) (from to step : Z) : list Node :=
  if 0 <? step then
    if 0 <=? from then sliceSpec elems from to step else []
  else if step <? 0 then
    if (0 <=? from) && (from <? to) && (from <? Z.of_nat (List.length elems))
    then sliceDownSpec elems from step
    else []
  else [].

(** * Properties *)

(** ** The descendant-container list *)

Lemma flat_map_container_kids (f : Node -> list Node) (kids : list (string * Node)) :
  flat_map (fun kv => if isContainer (snd kv) then f (snd kv) else []) kids
  = flat_map f (filter isContainer (map snd kids)).
Proof.
  induction kids as [|[k v] kids IH]; simpl; [reflexivity|].
  destruct (isContainer v); simpl; now rewrite IH.
Qed.

(** [recursiveChildren] as the source writes it: [temp] is [result]
    followed by the lists of the elements of [result], in order. *)
Lemma recursiveChildren_eq (node : Node) :
  recursiveChildren node
  = containerChildren node ++ flat_map recursiveChildren (containerChildren node).
Proof.
  destruct node as [v|kids|kids]; simpl; [reflexivity| |];
    unfold containerChildren, inheritors; simpl;
    now rewrite flat_map_container_kids.
Qed.

Lemma containerChildren_containers (node : Node) :
  Forall (fun n => isContainer n = true) (containerChildren node).
Proof.
  unfold containerChildren. destruct (isContainer node); [|constructor].
  apply Forall_forall. intros n Hn. now apply filter_In in Hn.
Qed.

Lemma recursiveChildren_containers (node : Node) :
  Forall (fun n => isContainer n = true) (recursiveChildren node).
Proof.
  induction node as [v|kids IH|kids IH] using Node_tree_ind.
  - constructor.
  - rewrite recursiveChildren_eq. apply Forall_app. split.
    + apply containerChildren_containers.
    + unfold containerChildren, inheritors. simpl.
      rewrite <- flat_map_container_kids.
      induction IH as [|[k v] kids Hv _ IHk]; simpl; [constructor|].
      apply Forall_app. split; [|exact IHk].
      simpl in Hv. destruct (isContainer v); [exact Hv|constructor].
  - rewrite recursiveChildren_eq. apply Forall_app. split.
    + apply containerChildren_containers.
    + unfold containerChildren, inheritors. simpl.
      rewrite <- flat_map_container_kids.
      induction IH as [|[k v] kids Hv _ IHk]; simpl; [constructor|].
      apply Forall_app. split; [|exact IHk].
      simpl in Hv. destruct (isContainer v); [exact Hv|constructor].
Qed.

(** Filtering the children and interleaving their lists is a rearrangement
    of listing the children first and their lists afterwards. *)
Lemma interleave_Permutation (f g : Node -> list Node) (kids : list (string * Node)) :
  Forall (fun kv => Permutation (f (snd kv)) (g (snd kv))) kids ->
  Permutation
    (filter isContainer (map snd kids)
       ++ flat_map (fun kv => if isContainer (snd kv) then f (snd kv) else []) kids)
    (flat_map (fun kv => if isContainer (snd kv) then snd kv :: g (snd kv) else []) kids).
Proof.
  induction 1 as [|[k v] kids Hv _ IH]; simpl; [constructor|].
  simpl in Hv. destruct (isContainer v); simpl; [|exact IH].
  constructor.
  etransitivity; [apply Permutation_app_swap_app|].
  apply Permutation_app; [exact Hv|exact IH].
Qed.

Lemma recursiveChildren_preorder_Permutation (node : Node) :
  Permutation (recursiveChildren node) (preorderContainers node).
Proof.
  induction node as [v|kids IH|kids IH] using Node_tree_ind.
  - constructor.
  - simpl. unfold inheritors. simpl. now apply interleave_Permutation.
  - simpl. unfold inheritors. simpl. now apply interleave_Permutation.
Qed.

(** C1, as the claim states it, fails: on [{"a":{"b":{}},"c":[]}] the list
    is [a, c, b], with the sibling [c] ahead of [a]'s own descendant [b],
    where the pre-order of the claim is [a, b, c]. *)
Lemma C1_not_preorder :
  isContainer nested_then_sibling = true
  /\ recursiveChildren nested_then_sibling
     = [Object [("b", Object [])]; Array []; Object []]
  /\ preorderContainers nested_then_sibling
     = [Object [("b", Object [])]; Object []; Array []]
  /\ recursiveChildren nested_then_sibling <> preorderContainers nested_then_sibling.
Proof. repeat split. discriminate. Qed.

(** C1, amended: the list of a node is its direct container children in
    natural order, followed by the lists of those children, one child after
    the other (so all the direct container children come before any deeper
    descendant); it holds containers only, never a leaf; and it holds the
    same nodes, as often, as the pre-order list.  On
    [{"a":{"b":{"price":5},"c":[{"price":7}]}}] the path [$..price] gives
    [5,7]. *)
Theorem C1_recursiveChildren_children_first (node : Node) (fuel : nat) (data : string) :
  recursiveChildren node
    = containerChildren node ++ flat_map recursiveChildren (containerChildren node)
  /\ containerChildren node
    = (if isContainer node then filter isContainer (inheritors node) else [])
  /\ Forall (fun n => isContainer n = true) (recursiveChildren node)
  /\ Permutation (recursiveChildren node) (preorderContainers node)
  /\ returned (JSONPath (parsesTo doc_prices) fuel data "$..price")
     = Some ([num 5; num 7], None).
Proof.
  split; [apply recursiveChildren_eq|].
  split; [reflexivity|].
  split; [apply recursiveChildren_containers|].
  split; [apply recursiveChildren_preorder_Permutation|].
  reflexivity.
Qed.

(** ** The tokenizer *)

Lemma scan_forward (n : nat) (stop : ascii -> bool) (b b' : buffer) (err : option Error) :
  scan n stop b = (b', err) ->
  index b <= index b' /\ length b' = length b /\ data b' = data b.
Proof.
  revert b. induction n as [|n IH]; intros b; simpl.
  - intros [= <- _]. repeat split; lia.
  - destruct (index b <? length b).
    + destruct (stop (byte_at b (index b))).
      * intros [= <- _]. repeat split; lia.
      * intros H. apply IH in H. simpl in H. repeat split; try tauto; lia.
    + intros [= <- _]. repeat split; lia.
Qed.

Lemma skipAny_forward (b b' : buffer) (s : ascii -> bool) (err : option Error) :
  skipAny b s = (b', err) ->
  index b <= index b' /\ length b' = length b /\ data b' = data b.
Proof. apply scan_forward. Qed.

Lemma step_forward (b b' : buffer) (err : option Error) :
  step b = (b', err) ->
  index b <= index b' /\ length b' = length b /\ data b' = data b
  /\ (err = None -> index b' = index b + 1 /\ index b' < length b').
Proof.
  unfold step. destruct (index b + 1 <? length b) eqn:E.
  - intros [= <- <-]. simpl. apply Z.ltb_lt in E. repeat split; lia.
  - intros [= <- <-]. repeat split; try lia; discriminate.
Qed.

Lemma next_forward (b b' : buffer) (c : ascii) (err : option Error) :
  next b = (b', c, err) ->
  index b <= index b' /\ length b' = length b /\ data b' = data b
  /\ (err = None -> index b' = index b + 1).
Proof.
  unfold next. destruct (step b) as [b1 [e|]] eqn:E; intros [= <- _ <-];
    apply step_forward in E; destruct E as (E1 & E2 & E3 & E4).
  - repeat split; try assumption. discriminate.
  - repeat split; try assumption. intros _. now apply E4.
Qed.

Lemma buf_string_forward (b b' : buffer) (c : ascii) (err : option Error) :
  buf_string b c = (b', err) ->
  index b <= index b' /\ length b' = length b /\ data b' = data b.
Proof.
  unfold buf_string, skip.
  destruct (step b) as [b1 [e|]] eqn:E; apply step_forward in E.
  - intros [= <- _]. tauto.
  - destruct E as (E1 & E3 & E4 & _).
    destruct (skipAny b1 (Ascii.eqb c)) as [b2 [e|]] eqn:E2;
      apply skipAny_forward in E2; destruct E2 as (F1 & F2 & F3);
      intros [= <- _]; (repeat split; [lia|congruence|congruence]).
Qed.

Lemma advance_forward (b b' : buffer) (result result' : list string) :
  advance b result = Again b' result' ->
  index b' = index b + 1 /\ index b' < length b' /\ length b' = length b.
Proof.
  unfold advance. destruct (step b) as [b1 [e|]] eqn:E; [discriminate|].
  intros [= <- _]. apply step_forward in E. destruct E as (_ & E1 & _ & E2).
  destruct (E2 eq_refl). repeat split; assumption.
Qed.

(** A turn that does not leave the loop moves the cursor forward and keeps
    it inside the input. *)
Lemma parseTurn_forward (b b' : buffer) (result result' : list string) :
  parseTurn b result = Again b' result' ->
  index b < index b' /\ index b' < length b' /\ length b' = length b.
Proof.
  unfold parseTurn.
  destruct (current b) as [c [e|]]; [discriminate|].
  destruct (Ascii.eqb c dollar).
  { intros H. apply advance_forward in H. lia. }
  destruct (Ascii.eqb c dot).
  { destruct (next b) as [[b1 c1] [e|]] eqn:N; apply next_forward in N.
    - intros H. apply advance_forward in H. lia.
    - destruct N as (_ & N1 & _ & N2). specialize (N2 eq_refl).
      destruct (Ascii.eqb c1 dot).
      + intros H. apply advance_forward in H. simpl in H. lia.
      + destruct (skipAny b1 childEnd) as [b2 e2] eqn:S.
        apply skipAny_forward in S.
        destruct e2 as [[| | | |code]|]; intros H; apply advance_forward in H;
          simpl in H; lia. }
  destruct (Ascii.eqb c bracketL); [|discriminate].
  destruct (next b) as [[b1 c1] [e|]] eqn:N; [discriminate|].
  apply next_forward in N. destruct N as (_ & N1 & _ & N2). specialize (N2 eq_refl).
  destruct (Ascii.eqb c1 quote).
  - destruct (buf_string b1 quote) as [b2 [e|]] eqn:S; [discriminate|].
    apply buf_string_forward in S.
    destruct (next b2) as [[b3 c3] [e|]] eqn:N3; [discriminate|].
    apply next_forward in N3.
    destruct (negb (Ascii.eqb c3 bracketR)); [discriminate|].
    intros H. apply advance_forward in H. lia.
  - destruct (skip b1 bracketR) as [b2 [e|]] eqn:S; [discriminate|].
    apply skipAny_forward in S.
    intros H. apply advance_forward in H. lia.
Qed.

Lemma parseLoop_total (fuel : nat) (b : buffer) (result : list string) :
  index b <= length b ->
  length b - index b < Z.of_nat fuel ->
  exists r, parseLoop fuel b result = Some r.
Proof.
  revert b result. induction fuel as [|fuel IH]; intros b result Hi Hm; [lia|simpl].
  destruct (parseTurn b result) as [r e|b' result'] eqn:T.
  - eauto.
  - apply parseTurn_forward in T. apply IH; lia.
Qed.

(** The tokenizer returns on every path. *)
Lemma ParseJSONPath_total (path : string) :
  exists commands err, ParseJSONPath path = Some (commands, err).
Proof.
  unfold ParseJSONPath.
  destruct (parseLoop_total (S (String.length path)) (newBuffer path) []) as [[c e] H].
  - simpl. lia.
  - simpl. lia.
  - eauto.
Qed.

(** C8: the three paths of the specification tokenize to the command
    sequences it gives. *)
Theorem C8_tokenizer_examples :
  ParseJSONPath "$..a" = Some (["$"; ".."; "a"], None)
  /\ ParseJSONPath "$['a']['b']" = Some (["$"; "a"; "b"], None)
  /\ ParseJSONPath "$.a.b" = Some (["$"; "a"; "b"], None).
Proof. repeat split; reflexivity. Qed.

(** ** Array keys *)

Lemma Itoa_inj (i j : Z) : strconv.Itoa i = strconv.Itoa j -> i = j.
Proof.
  unfold strconv.Itoa. intros H.
  assert (N : forall z, Z.to_int z <> Decimal.Pos Decimal.Nil
                     /\ Z.to_int z <> Decimal.Neg Decimal.Nil).
  { intros [|p|p]; simpl; split; try discriminate;
      intros [= E]; now apply DecimalPos.Unsigned.to_uint_nonnil in E. }
  assert (E : Some (Z.to_int i) = Some (Z.to_int j)).
  { rewrite <- (NilZero.isi (Z.to_int i)) by apply N.
    rewrite <- (NilZero.isi (Z.to_int j)) by apply N.
    now rewrite H. }
  injection E as E. now apply DecimalZ.to_int_inj in E.
Qed.

Lemma lookup_indexed (elems : list Node) (base i : Z) :
  lookup (strconv.Itoa i) (indexed base elems)
  = if base <=? i then nth_error elems (Z.to_nat (i - base)) else None.
Proof.
  revert base. induction elems as [|e elems IH]; intros base; simpl.
  - destruct (base <=? i); [|reflexivity]. now destruct (Z.to_nat (i - base)).
  - destruct (String.eqb_spec (strconv.Itoa base) (strconv.Itoa i)) as [E|E].
    + apply Itoa_inj in E. subst i. rewrite Z.leb_refl, Z.sub_diag. reflexivity.
    + assert (base <> i) by (intros ->; now apply E).
      rewrite IH.
      destruct (base + 1 <=? i) eqn:L1; destruct (base <=? i) eqn:L2;
        try apply Z.leb_le in L1; try apply Z.leb_le in L2;
        try apply Z.leb_gt in L1; try apply Z.leb_gt in L2; try lia; try reflexivity.
      replace (Z.to_nat (i - base)) with (S (Z.to_nat (i - (base + 1)))) by lia.
      reflexivity.
Qed.

Lemma child_wellIndexed (element : Node) (i : Z) :
  wellIndexed element ->
  child element (strconv.Itoa i)
  = if 0 <=? i then nth_error (inheritors element) (Z.to_nat i) else None.
Proof.
  unfold wellIndexed, child. intros ->. rewrite lookup_indexed.
  now rewrite Z.sub_0_r.
Qed.

Lemma inheritors_indexed (elems : list Node) (base : Z) :
  map snd (indexed base elems) = elems.
Proof.
  revert base. induction elems as [|e elems IH]; intros base; simpl; [reflexivity|].
  now rewrite IH.
Qed.

Lemma mkArray_wellIndexed (elems : list Node) : wellIndexed (mkArray elems).
Proof.
  unfold wellIndexed, inheritors, mkArray. simpl. now rewrite inheritors_indexed.
Qed.

Lemma inheritors_mkArray (elems : list Node) : inheritors (mkArray elems) = elems.
Proof. unfold inheritors, mkArray. simpl. apply inheritors_indexed. Qed.

(** ** Machine arithmetic of the slice loop *)

Lemma wrap_in_range (z : Z) :
  Int.MinInt64 <= z <= Int.MaxInt64 -> Int.wrap z = z.
Proof.
  unfold Int.wrap, Int.MinInt64, Int.MaxInt64. intros H.
  rewrite Z.mod_small; lia.
Qed.

Lemma wrap_overflow (z : Z) :
  Int.MaxInt64 < z <= 2 * Int.MaxInt64 -> Int.wrap z = z - 2 ^ 64 /\ Int.wrap z < 0.
Proof.
  unfold Int.wrap, Int.MaxInt64. intros H.
  replace (z + 2 ^ 63) with ((z - 2 ^ 63) + 1 * 2 ^ 64) by lia.
  rewrite Z.mod_add by lia. rewrite Z.mod_small; lia.
Qed.

Lemma sliceCount_zero (from to step len : Z) :
  0 < step -> Z.min to len <= from -> sliceCount from to step len = 0%nat.
Proof.
  intros Hs Hm. unfold sliceCount.
  assert ((Z.min to len - from + step - 1) / step <= 0); [|lia].
  apply Z.lt_succ_r. apply Z.div_lt_upper_bound; lia.
Qed.

Lemma sliceCount_succ (from to step len : Z) :
  0 < step -> from < Z.min to len ->
  sliceCount from to step len = S (sliceCount (from + step) to step len).
Proof.
  intros Hs Hm. unfold sliceCount.
  replace (Z.min to len - from + step - 1)
    with ((Z.min to len - (from + step) + step - 1) + 1 * step) by lia.
  rewrite Z.div_add by lia.
  assert (0 <= (Z.min to len - (from + step) + step - 1) / step); [|lia].
  apply Z.div_le_lower_bound; lia.
Qed.

Lemma sliceSpec_stop (elems : list Node) (from to step : Z) :
  0 < step -> Z.min to (Z.of_nat (List.length elems)) <= from ->
  sliceSpec elems from to step = [].
Proof.
  intros Hs Hm. unfold sliceSpec. now rewrite sliceCount_zero.
Qed.

Lemma sliceSpec_go (elems : list Node) (from to step : Z) (value : Node) :
  0 < step -> 0 <= from -> from < Z.min to (Z.of_nat (List.length elems)) ->
  nth_error elems (Z.to_nat from) = Some value ->
  sliceSpec elems from to step = value :: sliceSpec elems (from + step) to step.
Proof.
  intros Hs H0 Hm Hv. unfold sliceSpec. rewrite sliceCount_succ by assumption.
  simpl. rewrite Z.add_0_r, Hv. simpl. f_equal.
  rewrite <- seq_shift, flat_map_concat_map, map_map, <- flat_map_concat_map.
  apply flat_map_ext. intros k.
  replace (from + Z.of_nat (S k) * step) with (from + step + Z.of_nat k * step) by lia.
  reflexivity.
Qed.

(** ** The slice loop *)

Lemma sliceCount_le_len (from to step len : Z) :
  0 < step -> 0 <= from -> 0 <= len ->
  (sliceCount from to step len <= Z.to_nat len)%nat.
Proof.
  intros Hs H0 Hl.
  destruct (Z.le_gt_cases (Z.min to len) from) as [L|L].
  - rewrite sliceCount_zero by lia. lia.
  - unfold sliceCount. apply Z2Nat.inj_le.
    + apply Z.div_pos; lia.
    + lia.
    + apply Z.div_le_upper_bound; [lia|]. nia.
Qed.

Section slice_loop.

Variables (element : Node) (to step : Z).
Hypothesis element_indexed : wellIndexed element.
Hypothesis step_positive : 0 < step <= Int.MaxInt64.
Hypothesis to_int : to <= Int.MaxInt64.

(** With a positive step the loop returns, within one turn per selected
    element and one more, the elements at [from], [from + step], ...
    below [to]. *)
Lemma sliceLoop_sliceSpec (n fuel : nat) (from : Z) (acc : list Node) :
  0 <= from ->
  sliceCount from to step (Z.of_nat (List.length (inheritors element))) = n ->
  (n < fuel)%nat ->
  sliceLoop fuel element from to step acc
  = Some (acc ++ sliceSpec (inheritors element) from to step).
Proof.
  remember (Z.of_nat (List.length (inheritors element))) as len eqn:Hlen.
  revert fuel from acc.
  induction n as [|n IH]; intros fuel from acc H0 Hn Hf;
    (destruct fuel as [|fuel]; [lia|]); simpl.
  - assert (Hm : Z.min to len <= from).
    { destruct (Z.le_gt_cases (Z.min to len) from) as [L|L]; [exact L|].
      rewrite sliceCount_succ in Hn by lia. discriminate. }
    rewrite sliceSpec_stop, List.app_nil_r by lia.
    destruct (from <? to) eqn:Lt; [|reflexivity].
    apply Z.ltb_lt in Lt.
    rewrite child_wellIndexed by assumption.
    replace (0 <=? from) with true by (symmetry; apply Z.leb_le; lia).
    assert (E : nth_error (inheritors element) (Z.to_nat from) = None).
    { apply nth_error_None. lia. }
    now rewrite E.
  - assert (Hm : from < Z.min to len).
    { destruct (Z.le_gt_cases (Z.min to len) from) as [L|L]; [|lia].
      rewrite sliceCount_zero in Hn by lia. discriminate. }
    rewrite sliceCount_succ in Hn by lia. injection Hn as Hn.
    replace (from <? to) with true by (symmetry; apply Z.ltb_lt; lia).
    rewrite child_wellIndexed by assumption.
    replace (0 <=? from) with true by (symmetry; apply Z.leb_le; lia).
    destruct (nth_error (inheritors element) (Z.to_nat from)) as [value|] eqn:E.
    2:{ apply nth_error_None in E. lia. }
    rewrite (sliceSpec_go _ from to step value) by (lia || assumption).
    destruct (Z.le_gt_cases (from + step) Int.MaxInt64) as [L|L].
    + unfold Int.add. rewrite wrap_in_range by (unfold Int.MinInt64; lia).
      rewrite (IH fuel (from + step) (acc ++ [value])) by lia.
      now rewrite <- List.app_assoc.
    + destruct (wrap_overflow (from + step)) as [_ Neg]; [lia|].
      rewrite sliceSpec_stop by lia.
      assert (n = 0%nat) as ->.
      { rewrite sliceCount_zero in Hn by lia. now symmetry. }
      destruct fuel as [|fuel]; [lia|]. simpl. unfold Int.add.
      replace (Int.wrap (from + step) <? to) with true
        by (symmetry; apply Z.ltb_lt; lia).
      rewrite child_wellIndexed by assumption.
      replace (0 <=? Int.wrap (from + step)) with false
        by (symmetry; apply Z.leb_gt; lia).
      reflexivity.
Qed.

End slice_loop.

(** With a negative step the index walks down and leaves the array below
    0. *)
Lemma sliceLoop_negative_step (element : Node) (to step : Z) :
  wellIndexed element ->
  Int.MinInt64 <= step < 0 ->
  forall (fuel : nat) (from : Z) (acc : list Node),
  from <= Int.MaxInt64 ->
  Z.max 0 (Z.min (from + 1) (Z.of_nat (List.length (inheritors element))))
    < Z.of_nat fuel ->
  exists r, sliceLoop fuel element from to step acc = Some r.
Proof.
  intros Hw Hs. induction fuel as [|fuel IH]; intros from acc Hr Hf; [lia|].
  simpl. destruct (from <? to); [|now eauto].
  rewrite child_wellIndexed by assumption.
  destruct (0 <=? from) eqn:L0; [|now eauto]. apply Z.leb_le in L0.
  destruct (nth_error (inheritors element) (Z.to_nat from)) as [value|] eqn:E;
    [|now eauto].
  assert (Hlen : (Z.to_nat from < List.length (inheritors element))%nat).
  { apply nth_error_Some. now rewrite E. }
  unfold Int.add. rewrite wrap_in_range by (unfold Int.MinInt64 in *; lia).
  apply IH; lia.
Qed.

(** The slice loop on a well-indexed array returns for every step but 0,
    within one turn per element and one more. *)
Lemma sliceLoop_returns (fuel : nat) (element : Node) (from to step : Z) (acc : list Node) :
  wellIndexed element ->
  (List.length (inheritors element) < fuel)%nat ->
  step <> 0 -> Int.MinInt64 <= step <= Int.MaxInt64 ->
  from <= Int.MaxInt64 -> to <= Int.MaxInt64 ->
  exists r, sliceLoop fuel element from to step acc = Some r.
Proof.
  intros Hw Hl Hs Hr Hf Ht.
  destruct (Z.lt_trichotomy step 0) as [Neg|[Zero|Pos]]; [|contradiction|].
  - apply sliceLoop_negative_step; (assumption || lia).
  - destruct (Z.le_gt_cases 0 from) as [H0|H0].
    + rewrite (sliceLoop_sliceSpec element to step Hw (conj Pos (proj2 Hr)) Ht
                 _ _ from acc H0 eq_refl); [now eauto|].
      pose proof (sliceCount_le_len from to step
                    (Z.of_nat (List.length (inheritors element)))). lia.
    + destruct fuel as [|fuel]; [lia|].
      simpl. destruct (from <? to); [|now eauto].
      rewrite child_wellIndexed by assumption.
      replace (0 <=? from) with false by (symmetry; apply Z.leb_gt; lia).
      now eauto.
Qed.

(** The slice of one result list: the arrays contribute their selected
    elements, in the order of the result, and nothing else does. *)
Lemma sliceRange_sliceSpec (fuel : nat) (from to step : Z) (result acc : list Node) :
  0 <= from -> 0 < step <= Int.MaxInt64 -> to <= Int.MaxInt64 ->
  Forall (fun element => IsArray element = true ->
            wellIndexed element /\ (List.length (inheritors element) < fuel)%nat) result ->
  sliceRange fuel result from to step acc
  = Some (acc ++ flat_map (fun element =>
                   if IsArray element
                   then sliceSpec (inheritors element) from to step
                   else []) result).
Proof.
  intros H0 Hs Ht Hall. revert acc.
  induction Hall as [|element result He _ IH]; intros acc; simpl.
  - now rewrite List.app_nil_r.
  - destruct (IsArray element) eqn:A; [|apply IH].
    destruct (He eq_refl) as [Hw Hl].
    rewrite (sliceLoop_sliceSpec element to step Hw Hs Ht
               (sliceCount from to step (Z.of_nat (List.length (inheritors element))))
               fuel from acc H0 eq_refl).
    + rewrite IH. now rewrite <- List.app_assoc.
    + pose proof (sliceCount_le_len from to step
                    (Z.of_nat (List.length (inheritors element)))). lia.
Qed.

Lemma sliceRange_no_array (fuel : nat) (from to step : Z) (result acc : list Node) :
  Forall (fun element => IsArray element = false) result ->
  sliceRange fuel result from to step acc = Some acc.
Proof.
  induction 1 as [|element result He _ IH]; simpl; [reflexivity|].
  now rewrite He.
Qed.

Lemma Atoi_in_range (s : string) (v : Z) :
  strconv.Atoi s = Some v -> Int.MinInt64 <= v <= Int.MaxInt64.
Proof.
  unfold strconv.Atoi. destruct s as [|c rest]; [discriminate|].
  destruct (NilZero.uint_of_string _) as [d|]; [|discriminate].
  cbv zeta. destruct (Int.in_range _) eqn:R; [|discriminate].
  intros [= <-]. unfold Int.in_range in R.
  apply andb_prop in R. destruct R as [R1 R2].
  apply Z.leb_le in R1. apply Z.leb_le in R2. lia.
Qed.

Lemma sliceBounds_in_range (keys : list string) (from to step : Z) :
  sliceBounds keys = inr (from, to, step) ->
  from <= Int.MaxInt64 /\ to <= Int.MaxInt64 /\ step <= Int.MaxInt64.
Proof.
  unfold sliceBounds.
  destruct (3 <? Z.of_nat (List.length keys)); [discriminate|].
  destruct (String.eqb (nth 0 keys EmptyString) EmptyString).
  2: destruct (strconv.Atoi (nth 0 keys EmptyString)) as [f|] eqn:F;
       [apply Atoi_in_range in F|discriminate].
  all: destruct (String.eqb (nth 1 keys EmptyString) EmptyString).
  all: try (destruct (strconv.Atoi (nth 1 keys EmptyString)) as [t|] eqn:T;
            [apply Atoi_in_range in T|discriminate]).
  all: destruct ((Z.of_nat (List.length keys) =? 3)
                 && negb (String.eqb (nth 2 keys EmptyString) EmptyString)).
  all: try (destruct (strconv.Atoi (nth 2 keys EmptyString)) as [s|] eqn:S;
            [apply Atoi_in_range in S|discriminate]).
  all: intros [= <- <- <-]; unfold Int.MaxInt64 in *; lia.
Qed.

(** The fields of a command with a colon are at least two, so that
    [keys[0]] and [keys[1]] exist. *)
Lemma Split_Contains (cmd : string) (sep : ascii) :
  strings.Contains cmd sep = true ->
  exists k0 k1 tail, strings.Split cmd sep = k0 :: k1 :: tail.
Proof.
  induction cmd as [|a cmd IH]; simpl; [discriminate|].
  destruct (Ascii.eqb a sep); simpl.
  - intros _. destruct cmd as [|b cmd]; simpl; [now eauto|].
    destruct (Ascii.eqb b sep); [now eauto|].
    destruct (strings.Split cmd sep); now eauto.
  - intros H. destruct (IH H) as (k0 & k1 & tail & ->). now eauto.
Qed.

Lemma Split_nonempty (cmd : string) (sep : ascii) : strings.Split cmd sep <> [].
Proof.
  destruct cmd as [|a cmd]; simpl; [discriminate|].
  destruct (Ascii.eqb a sep); [discriminate|].
  destruct (strings.Split cmd sep); discriminate.
Qed.

Lemma skipn_nth_error (A : Type) (l : list A) (n : nat) (x : A) :
  nth_error l n = Some x -> skipn n l = x :: skipn (S n) l.
Proof.
  revert l. induction n as [|n IH]; intros [|y l]; simpl; try discriminate.
  - now intros [= ->].
  - intros H. now apply IH.
Qed.

(** With step 1 a slice is the segment of the array from [from] up to
    [to]. *)
Lemma sliceSpec_segment (elems : list Node) (to : Z) (n : nat) (from : Z) :
  0 <= from ->
  sliceCount from to 1 (Z.of_nat (List.length elems)) = n ->
  sliceSpec elems from to 1
  = firstn (Z.to_nat (to - from)) (skipn (Z.to_nat from) elems).
Proof.
  revert from. induction n as [|n IH]; intros from H0 Hn.
  - assert (Hm : Z.min to (Z.of_nat (List.length elems)) <= from).
    { destruct (Z.le_gt_cases (Z.min to (Z.of_nat (List.length elems))) from) as [L|L];
        [exact L|]. rewrite sliceCount_succ in Hn by lia. discriminate. }
    rewrite sliceSpec_stop by lia.
    destruct (Z.le_gt_cases to from) as [L|L].
    + replace (Z.to_nat (to - from)) with 0%nat by lia. reflexivity.
    + rewrite skipn_all2 by lia. now rewrite firstn_nil.
  - assert (Hm : from < Z.min to (Z.of_nat (List.length elems))).
    { destruct (Z.le_gt_cases (Z.min to (Z.of_nat (List.length elems))) from) as [L|L];
        [|lia]. rewrite sliceCount_zero in Hn by lia. discriminate. }
    rewrite sliceCount_succ in Hn by lia. injection Hn as Hn.
    destruct (nth_error elems (Z.to_nat from)) as [value|] eqn:E.
    2:{ apply nth_error_None in E. lia. }
    rewrite (sliceSpec_go _ _ _ _ value) by (lia || assumption).
    rewrite (skipn_nth_error _ _ _ _ E).
    replace (Z.to_nat (to - from)) with (S (Z.to_nat (to - (from + 1)))) by lia.
    simpl firstn. f_equal.
    rewrite (IH (from + 1)) by (lia || assumption).
    now replace (Z.to_nat (from + 1)) with (S (Z.to_nat from)) by lia.
Qed.

(** ** The commands *)

Lemma command_slice (fuel : nat) (root : Node) (i : nat) (cmd : string) (result : list Node) :
  strings.Contains cmd ":" = true ->
  command fuel root i cmd result
  = match sliceBounds (strings.Split cmd ":") with
    | inl err => Some (inl err)
    | inr (from, to, step) =>
        option_map inr (sliceRange fuel result from to step [])
    end.
Proof.
  intros H. unfold command.
  destruct (String.eqb_spec cmd "$") as [->|_]; [discriminate|].
  destruct (String.eqb_spec cmd "..") as [->|_]; [discriminate|].
  destruct (String.eqb_spec cmd "*") as [->|_]; [discriminate|].
  rewrite H.
  destruct (sliceBounds _) as [err|[[from to] step]]; [reflexivity|].
  now destruct (sliceRange _ _ _ _ _ _).
Qed.

(** With step 0 the index never moves: as long as the first index is below
    [to] and present, no number of turns ends the loop. *)
Lemma sliceLoop_zero_step (element : Node) (i to : Z) (value : Node) :
  Int.MinInt64 <= i <= Int.MaxInt64 -> i < to ->
  child element (strconv.Itoa i) = Some value ->
  forall fuel acc, sliceLoop fuel element i to 0 acc = None.
Proof.
  intros Hr Hlt Hc fuel. induction fuel as [|fuel IH]; intros acc; simpl; [reflexivity|].
  replace (i <? to) with true by (symmetry; now apply Z.ltb_lt).
  rewrite Hc. unfold Int.add. rewrite Z.add_0_r, wrap_in_range by assumption.
  apply IH.
Qed.

Lemma JSONPath_returned (Unmarshal : string -> Node + Error) (fuel : nat)
    (data path : string) (commands : list string) :
  ParseJSONPath path = Some (commands, None) ->
  returned (JSONPath Unmarshal fuel data path)
  = match Unmarshal data with
    | inl root => commandsLoop fuel root 0 commands []
    | inr err => Some ([], Some err)
    end.
Proof.
  intros Hp. unfold JSONPath, returned, bind, callUnmarshal, ret.
  rewrite Hp. simpl. now destruct (Unmarshal data).
Qed.

Lemma JSONPath_commands (Unmarshal : string -> Node + Error) (fuel : nat)
    (data path : string) (commands : list string) (root : Node) :
  ParseJSONPath path = Some (commands, None) ->
  Unmarshal data = inl root ->
  returned (JSONPath Unmarshal fuel data path) = commandsLoop fuel root 0 commands [].
Proof.
  intros Hp Hu. unfold JSONPath, returned, bind, callUnmarshal, ret.
  rewrite Hp. simpl. now rewrite Hu.
Qed.

(** C3 fails on the code: the step 0 passes the validation of the slice
    fields, and on the document [[1]] the loop of [$[0:1:0]] stays at index
    0, which is below [to] and present: the query does not return, whatever
    the number of turns it is given. *)
Theorem C3_zero_step_never_returns (fuel : nat) (data : string) :
  ParseJSONPath "$[0:1:0]" = Some (["$"; "0:1:0"], None)
  /\ sliceBounds (strings.Split "0:1:0" ":") = inr (0, 1, 0)
  /\ returned (JSONPath (parsesTo (mkArray [num 1])) fuel data "$[0:1:0]") = None.
Proof.
  split; [reflexivity|]. split; [reflexivity|].
  rewrite (JSONPath_commands _ fuel data _ ["$"; "0:1:0"] (mkArray [num 1]))
    by reflexivity.
  cbn [commandsLoop]. change (command fuel (mkArray [num 1]) 0 "$" [])
    with (Some (@inr Error _ [mkArray [num 1]])).
  cbv iota beta.
  rewrite command_slice by reflexivity.
  change (sliceBounds (strings.Split "0:1:0" ":")) with (@inr Error _ (0, 1, 0)).
  cbv iota beta. cbn [sliceRange IsArray mkArray].
  rewrite (sliceLoop_zero_step _ 0 1 (num 1)); [reflexivity| |lia|reflexivity].
  unfold Int.MinInt64, Int.MaxInt64. lia.
Qed.

(** ** Malformed slices *)

Lemma sliceBounds_malformed (keys : list string) :
  (3 < List.length keys)%nat
  \/ (exists j k, nth_error keys j = Some k /\ k <> EmptyString /\ strconv.Atoi k = None) ->
  sliceBounds keys = inl errorRequest.
Proof.
  intros H. unfold sliceBounds.
  destruct (3 <? Z.of_nat (List.length keys)) eqn:L; [reflexivity|].
  apply Z.ltb_ge in L.
  destruct H as [H|(j & k & Hj & Hk & Ha)]; [lia|].
  assert (Hlen : (j < List.length keys)%nat).
  { apply nth_error_Some. now rewrite Hj. }
  assert (Hnth : nth j keys EmptyString = k) by now apply nth_error_nth.
  assert (Hne : String.eqb k EmptyString = false) by now apply String.eqb_neq.
  destruct j as [|[|[|j]]]; [| | |lia].
  - rewrite Hnth, Hne, Ha. reflexivity.
  - rewrite Hnth, Hne, Ha.
    now destruct (if String.eqb (nth 0 keys EmptyString) EmptyString then _ else _).
  - rewrite Hnth, Hne, Ha.
    replace (Z.of_nat (List.length keys) =? 3) with true
      by (symmetry; apply Z.eqb_eq; lia).
    simpl.
    destruct (if String.eqb (nth 0 keys EmptyString) EmptyString then _ else _); [|reflexivity].
    now destruct (if String.eqb (nth 1 keys EmptyString) EmptyString then _ else _).
Qed.

Lemma commandsLoop_app (fuel : nat) (root : Node) (before rest : list string) :
  forall (i : nat) (result : list Node),
  commandsLoop fuel root i (before ++ rest) result
  = match commandsLoop fuel root i before result with
    | Some (result', None) =>
        commandsLoop fuel root (i + List.length before) rest result'
    | other => other
    end.
Proof.
  induction before as [|cmd before IH]; intros i result; simpl.
  - now rewrite Nat.add_0_r.
  - destruct (command fuel root i cmd result) as [[err|result']|]; try reflexivity.
    rewrite IH. now rewrite Nat.add_succ_r.
Qed.

Lemma commandsLoop_error_nil (fuel : nat) (root : Node) (commands : list string) :
  forall (i : nat) (result nodes : list Node) (err : Error),
  commandsLoop fuel root i commands result = Some (nodes, Some err) -> nodes = [].
Proof.
  induction commands as [|cmd commands IH]; intros i result nodes err; simpl.
  - discriminate.
  - destruct (command fuel root i cmd result) as [[e|result']|].
    + now intros [= <- _].
    + apply IH.
    + discriminate.
Qed.

Lemma JSONPath_error_nil (Unmarshal : string -> Node + Error) (fuel : nat)
    (data path : string) (nodes : list Node) (err : Error) :
  returned (JSONPath Unmarshal fuel data path) = Some (nodes, Some err) -> nodes = [].
Proof.
  unfold JSONPath, returned, bind, callUnmarshal, ret.
  destruct (ParseJSONPath path) as [[commands [e|]]|]; simpl.
  - now intros [= <- _].
  - destruct (Unmarshal data) as [root|e]; simpl.
    + apply commandsLoop_error_nil.
    + now intros [= <- _].
  - discriminate.
Qed.

(** C9: a slice command with more than three fields, or with a field that
    is present and is not an integer, makes the command fail with the
    request error whatever the working result is, before any slice loop
    runs; the fold stops there and returns the error with no nodes, also
    after a run of commands that went well; and whenever [JSONPath] returns
    an error its node list is empty. *)
Theorem C9_malformed_slice_fails (fuel : nat) (root : Node) (i : nat) (cmd : string)
    (result : list Node) :
  strings.Contains cmd ":" = true ->
  (3 < List.length (strings.Split cmd ":"))%nat
  \/ (exists j k, nth_error (strings.Split cmd ":") j = Some k
                  /\ k <> EmptyString /\ strconv.Atoi k = None) ->
  command fuel root i cmd result = Some (inl errorRequest)
  /\ (forall rest,
        commandsLoop fuel root i (cmd :: rest) result = Some ([], Some errorRequest))
  /\ (forall before rest start first,
        commandsLoop fuel root start before first = Some (result, None) ->
        commandsLoop fuel root start (before ++ cmd :: rest) first
        = Some ([], Some errorRequest))
  /\ (forall Unmarshal data path nodes err,
        returned (JSONPath Unmarshal fuel data path) = Some (nodes, Some err) ->
        nodes = []).
Proof.
  intros Hc Hbad.
  assert (E : forall k res, command fuel root k cmd res = Some (inl errorRequest)).
  { intros k res. rewrite command_slice by assumption.
    now rewrite sliceBounds_malformed. }
  split; [apply E|]. split; [|split].
  - intros rest. simpl. now rewrite E.
  - intros before rest start first Hb. rewrite commandsLoop_app, Hb. simpl.
    now rewrite E.
  - intros Unmarshal data path nodes err. apply JSONPath_error_nil.
Qed.

Lemma C9_malformed_slice_fails_witness :
  strings.Contains "1:x" ":" = true
  /\ nth_error (strings.Split "1:x" ":") 1 = Some "x"
  /\ strconv.Atoi "x" = None
  /\ command 0 doc_array 1 "1:x" [doc_array] = Some (inl errorRequest).
Proof.
  split; [reflexivity|]. split; [reflexivity|]. split; [reflexivity|].
  apply (C9_malformed_slice_fails 0 doc_array 1 "1:x" [doc_array] eq_refl).
  right. exists 1%nat, "x". repeat split. discriminate.
Defined.

(** ** Recursive descent, wildcard and root *)

(** C5: recursive descent keeps the working result and appends the
    descendant-container lists of its nodes, in order; the wildcard replaces
    the result by the direct children of its nodes, in order; so [$..*] and
    [$.*] differ on [{"a":{"b":1}}]. *)
Theorem C5_descent_appends_wildcard_replaces (fuel : nat) (root : Node) (i : nat)
    (result : list Node) (data : string) :
  command fuel root i ".." result
    = Some (inr (result ++ flat_map recursiveChildren result))
  /\ command fuel root i "*" result = Some (inr (flat_map inheritors result))
  /\ returned (JSONPath (parsesTo doc_nested) fuel data "$..*")
     = Some ([Object [("b", num 1)]; num 1], None)
  /\ returned (JSONPath (parsesTo doc_nested) fuel data "$.*")
     = Some ([Object [("b", num 1)]], None)
  /\ returned (JSONPath (parsesTo doc_nested) fuel data "$..*")
     <> returned (JSONPath (parsesTo doc_nested) fuel data "$.*").
Proof.
  assert (E1 : returned (JSONPath (parsesTo doc_nested) fuel data "$..*")
               = Some ([Object [("b", num 1)]; num 1], None)).
  { now rewrite (JSONPath_commands _ fuel data _ ["$"; ".."; "*"] doc_nested). }
  assert (E2 : returned (JSONPath (parsesTo doc_nested) fuel data "$.*")
               = Some ([Object [("b", num 1)]], None)).
  { now rewrite (JSONPath_commands _ fuel data _ ["$"; "*"] doc_nested). }
  repeat split; try assumption.
  rewrite E1, E2. discriminate.
Qed.

(** C6: on every document the path [$] returns the root alone; the root
    command in first position makes the empty initial result [[root]], and
    in any later position it leaves the working result as it is, here and
    in the fold. *)
Theorem C6_root_command (Unmarshal : string -> Node + Error) (fuel : nat)
    (data : string) (root : Node) :
  Unmarshal data = inl root ->
  returned (JSONPath Unmarshal fuel data "$") = Some ([root], None)
  /\ command fuel root 0 "$" [] = Some (inr [root])
  /\ (forall i result, i <> 0%nat -> command fuel root i "$" result = Some (inr result))
  /\ (forall i rest result, i <> 0%nat ->
        commandsLoop fuel root i ("$" :: rest) result
        = commandsLoop fuel root (S i) rest result).
Proof.
  intros Hu. split; [|split; [reflexivity|split]].
  - now rewrite (JSONPath_commands _ fuel data _ ["$"] root).
  - intros [|i] result Hi; [contradiction|reflexivity].
  - intros [|i] rest result Hi; [contradiction|reflexivity].
Qed.

Lemma C6_root_command_witness :
  parsesTo doc_keys "{}" = inl doc_keys
  /\ returned (JSONPath (parsesTo doc_keys) 0 "{}" "$") = Some ([doc_keys], None).
Proof.
  split; [reflexivity|].
  apply (C6_root_command (parsesTo doc_keys) 0 "{}" doc_keys eq_refl).
Defined.

(** ** Keys and unions *)

(** C7, as the claim states it, fails on its first example: the tokenizer
    wants the closing bracket right after a quoted key, so it rejects
    [$.a['x','y']] with the unexpected-symbol error and [JSONPath] returns
    no node. *)
Lemma C7_quoted_union_rejected :
  ParseJSONPath "$.a['x','y']" = Some ([], Some errorSymbol)
  /\ returned (JSONPath (parsesTo doc_keys) 0 EmptyString "$.a['x','y']")
     = Some ([], Some errorSymbol)
  /\ returned (JSONPath (parsesTo doc_keys) 0 EmptyString "$.a['x','y']")
     <> Some ([num 1; num 2], None).
Proof. repeat split. discriminate. Qed.

(** C7, amended: a key or union command is split on commas and replaces
    the working result by the matches, key after key in written order and,
    for one key, node after node in the order of the result; a node gives
    its child under exactly that key when it is a container that has one,
    and nothing otherwise, without any error.  On
    [{"a":{"x":1,"y":2,"z":3}}] the union without quotes [$.a[x,y]] gives
    [1,2] in that order and [$.a[x,w]] gives [1]; a quoted key stands alone
    in its brackets ([$.a['x']] gives [1]), and the quoted union
    [$.a['x','y']] is a parse error of the tokenizer. *)
Theorem C7_keys_and_unions (fuel : nat) (root : Node) (i : nat) (cmd : string)
    (result : list Node) :
  isKeyCommand cmd = true ->
  command fuel root i cmd result
    = Some (inr (flat_map (fun key => flat_map (keyMatch key) result)
                          (strings.Split cmd ",")))
  /\ (forall key element,
        keyMatch key element
        = if isContainer element
          then match lookup key (children element) with
               | Some value => [value]
               | None => []
               end
          else [])
  /\ (forall key,
        (forall element, In element result -> child element key = None) ->
        flat_map (keyMatch key) result = [])
  /\ (forall data,
        returned (JSONPath (parsesTo doc_keys) fuel data "$.a[x,y]")
          = Some ([num 1; num 2], None)
        /\ returned (JSONPath (parsesTo doc_keys) fuel data "$.a[x,w]")
          = Some ([num 1], None)
        /\ returned (JSONPath (parsesTo doc_keys) fuel data "$.a['x']")
          = Some ([num 1], None)
        /\ returned (JSONPath (parsesTo doc_keys) fuel data "$.a['x','y']")
          = Some ([], Some errorSymbol)).
Proof.
  intros Hk. unfold isKeyCommand in Hk.
  repeat (apply andb_prop in Hk; destruct Hk as [Hk ?]).
  repeat match goal with H : negb _ = true |- _ => apply negb_true_iff in H end.
  split; [|split; [|split]].
  - unfold command.
    repeat match goal with H : _ = false |- _ => rewrite H; clear H end.
    reflexivity.
  - reflexivity.
  - intros key Hnone. induction result as [|element rest IH]; simpl; [reflexivity|].
    rewrite IH by (intros e He; apply Hnone; now right).
    unfold keyMatch. rewrite (Hnone element) by now left.
    now destruct (isContainer element).
  - intros data. split; [|split; [|split]].
    + now rewrite (JSONPath_commands _ fuel data _ ["$"; "a"; "x,y"] doc_keys).
    + now rewrite (JSONPath_commands _ fuel data _ ["$"; "a"; "x,w"] doc_keys).
    + now rewrite (JSONPath_commands _ fuel data _ ["$"; "a"; "x"] doc_keys).
    + reflexivity.
Qed.

Lemma C7_keys_and_unions_witness :
  isKeyCommand "x,y" = true
  /\ command 0 doc_keys 2 "x,y" [Object [("x", num 1); ("y", num 2); ("z", num 3)]]
     = Some (inr [num 1; num 2]).
Proof.
  split; [reflexivity|].
  destruct (C7_keys_and_unions 0 doc_keys 2 "x,y"
              [Object [("x", num 1); ("y", num 2); ("z", num 3)]] eq_refl) as [H _].
  rewrite H. reflexivity.
Defined.

(** ** The empty working result *)

Lemma sliceBounds_error (keys : list string) (err : Error) :
  sliceBounds keys = inl err -> err = errorRequest.
Proof.
  unfold sliceBounds.
  destruct (3 <? _); [now intros [= <-]|].
  destruct (if String.eqb (nth 0 keys EmptyString) EmptyString then _ else _); [|now intros [= <-]].
  destruct (if String.eqb (nth 1 keys EmptyString) EmptyString then _ else _); [|now intros [= <-]].
  destruct (if _ && _ then _ else _); [discriminate|now intros [= <-]].
Qed.

Lemma byKeys_nil (keys : list string) : byKeys keys [] = [].
Proof. induction keys as [|key keys IH]; simpl; [reflexivity|exact IH]. Qed.

Lemma command_empty (fuel : nat) (root : Node) (i : nat) (cmd : string) :
  i <> 0%nat \/ cmd <> "$" ->
  command fuel root i cmd []
  = Some (if validSlice cmd then inr [] else inl errorRequest).
Proof.
  intros H. unfold command, validSlice.
  destruct (String.eqb_spec cmd "$") as [->|_].
  { destruct i as [|i]; [destruct H as [H|H]; now elim H|reflexivity]. }
  destruct (String.eqb_spec cmd "..") as [->|_]; [reflexivity|].
  destruct (String.eqb_spec cmd "*") as [->|_]; [reflexivity|].
  destruct (strings.Contains cmd ":").
  - destruct (sliceBounds _) as [err|[[from to] step]] eqn:B.
    + now rewrite (sliceBounds_error _ _ B).
    + reflexivity.
  - destruct (strings.HasPrefix cmd "?("); [reflexivity|].
    now rewrite byKeys_nil.
Qed.

Lemma commandsLoop_empty (fuel : nat) (root : Node) (commands : list string) :
  forall i : nat,
  i <> 0%nat \/ hd_error commands <> Some "$" ->
  commandsLoop fuel root i commands []
  = Some ([], if forallb validSlice commands then None else Some errorRequest).
Proof.
  induction commands as [|cmd commands IH]; intros i H; simpl; [reflexivity|].
  rewrite command_empty.
  - destruct (validSlice cmd); simpl; [|reflexivity].
    apply IH. now left.
  - destruct H as [H|H]; [now left|right]. intros ->. now apply H.
Qed.

(** C10, as the claim states it, fails: [.a[1:2:3:4]] tokenizes to commands
    that do not start with the root command, and [JSONPath] returns the
    request error of the malformed slice, not an empty result without
    error. *)
Lemma C10_rootless_path_can_fail :
  ParseJSONPath ".a[1:2:3:4]" = Some (["a"; "1:2:3:4"], None)
  /\ hd_error ["a"; "1:2:3:4"] <> Some "$"
  /\ command 0 doc_array 1 "1:2:3:4" [] = Some (inl errorRequest)
  /\ returned (JSONPath (parsesTo doc_array) 0 EmptyString ".a[1:2:3:4]")
     = Some ([], Some errorRequest)
  /\ returned (JSONPath (parsesTo doc_array) 0 EmptyString ".a[1:2:3:4]") <> Some ([], None).
Proof. repeat split; discriminate. Qed.

(** C10, amended: on the empty working result every command other than
    the root command in first position either gives the empty result again
    or, when it is a slice command with malformed fields, fails with the
    request error; no command loops.  So when the path tokenizes to commands
    that do not start with the root command and the document parses,
    [JSONPath] returns no node, without error when every slice command among
    them is well formed ([.a.b] is such a path) and with the request error
    otherwise. *)
Theorem C10_empty_result_stays_empty (Unmarshal : string -> Node + Error) (fuel : nat)
    (data path : string) (commands : list string) (root : Node) :
  ParseJSONPath path = Some (commands, None) ->
  hd_error commands <> Some "$" ->
  Unmarshal data = inl root ->
  returned (JSONPath Unmarshal fuel data path)
    = Some ([], if forallb validSlice commands then None else Some errorRequest)
  /\ (forall i cmd, i <> 0%nat \/ cmd <> "$" ->
        command fuel root i cmd []
        = Some (if validSlice cmd then inr [] else inl errorRequest))
  /\ (forall cmd, validSlice cmd = false <->
        strings.Contains cmd ":" = true
        /\ sliceBounds (strings.Split cmd ":") = inl errorRequest)
  /\ ParseJSONPath ".a.b" = Some (["a"; "b"], None)
  /\ returned (JSONPath (parsesTo root) fuel data ".a.b") = Some ([], None).
Proof.
  intros Hp Hh Hu. split; [|split; [|split; [|split]]].
  - rewrite (JSONPath_commands _ fuel data _ commands root) by assumption.
    apply commandsLoop_empty. now right.
  - intros i cmd. apply command_empty.
  - intros cmd. unfold validSlice. destruct (strings.Contains cmd ":").
    + destruct (sliceBounds _) as [err|b] eqn:B.
      * rewrite (sliceBounds_error _ _ B). tauto.
      * split; [discriminate|]. intros [_ H]. discriminate.
    + split; [discriminate|]. intros [H _]. discriminate.
  - reflexivity.
  - now rewrite (JSONPath_commands _ fuel data _ ["a"; "b"] root).
Qed.

Lemma C10_empty_result_stays_empty_witness :
  ParseJSONPath ".a[0:2]" = Some (["a"; "0:2"], None)
  /\ hd_error ["a"; "0:2"] <> Some "$"
  /\ parsesTo doc_array "{}" = inl doc_array
  /\ returned (JSONPath (parsesTo doc_array) 0 "{}" ".a[0:2]") = Some ([], None).
Proof.
  split; [reflexivity|]. split; [discriminate|]. split; [reflexivity|].
  destruct (C10_empty_result_stays_empty (parsesTo doc_array) 0 "{}" ".a[0:2]"
              ["a"; "0:2"] doc_array eq_refl) as [H _];
    [discriminate|reflexivity|].
  rewrite H. reflexivity.
Defined.

(** ** Tokenizer failures and the document parser *)

(** C2, as the claim states it, fails for [$.a[1:2:3:4]]: the tokenizer
    takes the bracket content as one command, so the document parser is
    called, and with a document it rejects [JSONPath] returns the document
    error instead of a parse error. *)
Lemma C2_four_fields_reach_the_document :
  ParseJSONPath "$.a[1:2:3:4]" = Some (["$"; "a"; "1:2:3:4"], None)
  /\ parsed (JSONPath (parsesTo doc_array) 0 "doc" "$.a[1:2:3:4]") = ["doc"]
  /\ parsed (JSONPath (parsesTo doc_array) 0 "doc" "$.a[1:2:3:4]") <> []
  /\ returned (JSONPath (rejects 7) 0 "doc" "$.a[1:2:3:4]")
     = Some ([], Some (DocumentError 7))
  /\ isParseError (DocumentError 7) = false.
Proof. repeat split. discriminate. Qed.

(** C2, amended: when the tokenizer fails on the path, [JSONPath] returns
    its error with no node and the document parser is not called; [$.a[]
    is such a path, with the unexpected-end parse error.  When the tokenizer
    succeeds the document parser is called once, on the document.
    [$.a[1:2:3:4]] is of this second kind: the document is parsed, its error
    is returned if it has one, and otherwise the slice command fails with
    the request error, which is a parse error. *)
Theorem C2_tokenizer_failure_before_document (Unmarshal : string -> Node + Error)
    (fuel : nat) (data path : string) (commands : list string) (err : Error) :
  ParseJSONPath path = Some (commands, Some err) ->
  (returned (JSONPath Unmarshal fuel data path) = Some ([], Some err)
   /\ parsed (JSONPath Unmarshal fuel data path) = [])
  /\ (forall path' commands',
        ParseJSONPath path' = Some (commands', None) ->
        parsed (JSONPath Unmarshal fuel data path') = [data])
  /\ (ParseJSONPath "$.a[" = Some ([], Some errorEOF)
      /\ isParseError errorEOF = true
      /\ returned (JSONPath Unmarshal fuel data "$.a[") = Some ([], Some errorEOF)
      /\ parsed (JSONPath Unmarshal fuel data "$.a[") = [])
  /\ (parsed (JSONPath Unmarshal fuel data "$.a[1:2:3:4]") = [data]
      /\ returned (JSONPath Unmarshal fuel data "$.a[1:2:3:4]")
         = Some ([], Some (match Unmarshal data with
                           | inl _ => errorRequest
                           | inr document_error => document_error
                           end))
      /\ isParseError errorRequest = true).
Proof.
  intros Hp. split; [|split; [|split]].
  - unfold JSONPath, returned, parsed, ret. rewrite Hp. now split.
  - intros path' commands' Hp'.
    unfold JSONPath, parsed, bind, callUnmarshal, ret. rewrite Hp'. simpl.
    now destruct (Unmarshal data).
  - repeat split.
  - split; [|split; [|reflexivity]].
    + unfold JSONPath, parsed, bind, callUnmarshal, ret.
      change (ParseJSONPath "$.a[1:2:3:4]") with (Some (["$"; "a"; "1:2:3:4"], @None Error)).
      simpl. now destruct (Unmarshal data).
    + rewrite (JSONPath_returned _ fuel data _ ["$"; "a"; "1:2:3:4"]) by reflexivity.
      destruct (Unmarshal data) as [root|e]; [|reflexivity].
      change ["$"; "a"; "1:2:3:4"] with (["$"; "a"] ++ ["1:2:3:4"]).
      rewrite commandsLoop_app.
      change (commandsLoop fuel root 0 ["$"; "a"] [])
        with (Some (byKeys ["a"] [root], @None Error)).
      cbv iota beta. cbn [commandsLoop].
      now rewrite command_slice.
Qed.

Lemma C2_tokenizer_failure_before_document_witness :
  ParseJSONPath "$.a['x" = Some ([], Some errorEOF)
  /\ returned (JSONPath (parsesTo doc_keys) 0 "{}" "$.a['x") = Some ([], Some errorEOF)
  /\ parsed (JSONPath (parsesTo doc_keys) 0 "{}" "$.a['x") = [].
Proof.
  split; [reflexivity|].
  apply (C2_tokenizer_failure_before_document (parsesTo doc_keys) 0 "{}" "$.a['x"
           [] errorEOF eq_refl).
Defined.

(** ** Termination of the fold when no slice has step 0 *)

Lemma lookup_In (key : string) (kids : list (string * Node)) (value : Node) :
  lookup key kids = Some value -> In value (map snd kids).
Proof.
  induction kids as [|[k v] kids IH]; simpl; [discriminate|].
  destruct (String.eqb k key).
  - intros [= ->]. now left.
  - intros H. right. now apply IH.
Qed.

Lemma fits_inheritors (fuel : nat) (n : Node) :
  fits fuel n -> Forall (fits fuel) (inheritors n).
Proof.
  assert (A : forall kids,
             fold_right (fun (kv : string * Node) rest => fits fuel (snd kv) /\ rest)
               True kids ->
             Forall (fits fuel) (map snd kids)).
  { induction kids as [|kv kids IH]; simpl; [constructor|].
    intros [H1 H2]. constructor; [exact H1|now apply IH]. }
  destruct n as [v|kids|kids]; simpl.
  - constructor.
  - intros (_ & _ & H). now apply A.
  - apply A.
Qed.

Lemma fits_recursiveChildren (fuel : nat) (n : Node) :
  fits fuel n -> Forall (fits fuel) (recursiveChildren n).
Proof.
  induction n as [v|kids IH|kids IH] using Node_tree_ind; intros Hn.
  - constructor.
  - pose proof (fits_inheritors fuel _ Hn) as Hk. unfold inheritors in Hk.
    simpl in Hk |- *. apply Forall_app. split.
    + apply Forall_forall. intros x Hx. apply filter_In in Hx.
      now apply (proj1 (Forall_forall _ _) Hk).
    + clear Hn. induction IH as [|[k v] kids Hv _ IHk]; simpl; [constructor|].
      inversion Hk; subst. apply Forall_app. split; [|now apply IHk].
      destruct (isContainer v); [now apply Hv|constructor].
  - pose proof (fits_inheritors fuel _ Hn) as Hk. unfold inheritors in Hk.
    simpl in Hk |- *. apply Forall_app. split.
    + apply Forall_forall. intros x Hx. apply filter_In in Hx.
      now apply (proj1 (Forall_forall _ _) Hk).
    + clear Hn. induction IH as [|[k v] kids Hv _ IHk]; simpl; [constructor|].
      inversion Hk; subst. apply Forall_app. split; [|now apply IHk].
      destruct (isContainer v); [now apply Hv|constructor].
Qed.

Lemma fits_array (fuel : nat) (element : Node) :
  fits fuel element -> IsArray element = true ->
  wellIndexed element /\ (List.length (inheritors element) < fuel)%nat.
Proof.
  destruct element as [v|kids|kids]; try discriminate.
  intros (Hw & Hl & _) _. split; [exact Hw|].
  unfold inheritors. simpl. now rewrite length_map.
Qed.

Lemma sliceLoop_Forall (P : Node -> Prop) (element : Node) (to step : Z) :
  Forall P (inheritors element) ->
  forall (fuel : nat) (i : Z) (acc r : list Node),
  Forall P acc ->
  sliceLoop fuel element i to step acc = Some r -> Forall P r.
Proof.
  intros He. induction fuel as [|fuel IH]; intros i acc r Ha; simpl; [discriminate|].
  destruct (i <? to); [|now intros [= <-]].
  destruct (child element (strconv.Itoa i)) as [value|] eqn:C; [|now intros [= <-]].
  apply IH. apply Forall_app. split; [exact Ha|].
  constructor; [|constructor].
  apply lookup_In in C. now apply (proj1 (Forall_forall _ _) He).
Qed.

Lemma sliceRange_returns (fuel : nat) (from to step : Z) (result : list Node) :
  step <> 0 -> Int.MinInt64 <= step <= Int.MaxInt64 ->
  from <= Int.MaxInt64 -> to <= Int.MaxInt64 ->
  Forall (fits fuel) result ->
  forall acc, Forall (fits fuel) acc ->
  exists r, sliceRange fuel result from to step acc = Some r /\ Forall (fits fuel) r.
Proof.
  intros Hs Hr Hf Ht Hall.
  induction Hall as [|element result He _ IH]; intros acc Ha; simpl; [now eauto|].
  destruct (IsArray element) eqn:A; [|now apply IH].
  destruct (fits_array _ _ He A) as [Hw Hl].
  destruct (sliceLoop_returns fuel element from to step acc Hw Hl Hs Hr Hf Ht) as [r Er].
  rewrite Er. apply IH.
  apply (sliceLoop_Forall _ element to step (fits_inheritors _ _ He) fuel from acc r Ha Er).
Qed.

Lemma sliceBounds_step_range (keys : list string) (from to step : Z) :
  sliceBounds keys = inr (from, to, step) -> Int.MinInt64 <= step <= Int.MaxInt64.
Proof.
  unfold sliceBounds.
  destruct (3 <? Z.of_nat (List.length keys)); [discriminate|].
  destruct (if String.eqb (nth 0 keys EmptyString) EmptyString then _ else _); [|discriminate].
  destruct (if String.eqb (nth 1 keys EmptyString) EmptyString then _ else _); [|discriminate].
  destruct ((Z.of_nat (List.length keys) =? 3)
            && negb (String.eqb (nth 2 keys EmptyString) EmptyString)).
  - destruct (strconv.Atoi (nth 2 keys EmptyString)) as [s|] eqn:S; [|discriminate].
    apply Atoi_in_range in S. now intros [= _ _ <-].
  - intros [= _ _ <-]. unfold Int.MinInt64, Int.MaxInt64. lia.
Qed.

Lemma byKeys_Forall (P : Node -> Prop) (keys : list string) (result : list Node) :
  Forall (fun element => Forall P (inheritors element)) result ->
  Forall P (byKeys keys result).
Proof.
  intros Hall. induction keys as [|key keys IH]; simpl; [constructor|].
  apply Forall_app. split; [|exact IH]. clear IH.
  induction Hall as [|element result He _ IH]; simpl; [constructor|].
  apply Forall_app. split; [|exact IH].
  destruct (isContainer element); [|constructor].
  destruct (child element key) as [value|] eqn:C; [|constructor].
  constructor; [|constructor].
  apply lookup_In in C. now apply (proj1 (Forall_forall _ _) He).
Qed.

Lemma command_returns (fuel : nat) (root : Node) (i : nat) (cmd : string)
    (result : list Node) :
  fits fuel root -> Forall (fits fuel) result -> movingSlice cmd = true ->
  command fuel root i cmd result = Some (inl errorRequest)
  \/ exists result', command fuel root i cmd result = Some (inr result')
                     /\ Forall (fits fuel) result'.
Proof.
  intros Hroot Hres Hmove. unfold movingSlice in Hmove. unfold command.
  destruct (String.eqb cmd "$").
  { right. eexists. split; [reflexivity|].
    destruct (Nat.eqb i 0); [|exact Hres].
    apply Forall_app. split; [exact Hres|]. now constructor. }
  destruct (String.eqb cmd "..").
  { right. eexists. split; [reflexivity|].
    apply Forall_app. split; [exact Hres|].
    apply Forall_flat_map. apply Forall_forall. intros x Hx.
    apply fits_recursiveChildren. now apply (proj1 (Forall_forall _ _) Hres). }
  destruct (String.eqb cmd "*").
  { right. eexists. split; [reflexivity|].
    apply Forall_flat_map. apply Forall_forall. intros x Hx.
    apply fits_inheritors. now apply (proj1 (Forall_forall _ _) Hres). }
  destruct (strings.Contains cmd ":").
  { destruct (sliceBounds _) as [err|[[from to] step]] eqn:B.
    - left. now rewrite (sliceBounds_error _ _ B).
    - right. apply negb_true_iff, Z.eqb_neq in Hmove.
      pose proof (sliceBounds_in_range _ _ _ _ B) as (Rf & Rt & _).
      pose proof (sliceBounds_step_range _ _ _ _ B) as Rs.
      destruct (sliceRange_returns fuel from to step result Hmove Rs Rf Rt Hres [])
        as (r & Er & Hr); [constructor|].
      rewrite Er. now eauto. }
  destruct (strings.HasPrefix cmd "?("); [right; now eauto|].
  right. eexists. split; [reflexivity|].
  apply byKeys_Forall.
  apply Forall_forall. intros x Hx. apply fits_inheritors.
  now apply (proj1 (Forall_forall _ _) Hres).
Qed.

Lemma commandsLoop_returns (fuel : nat) (root : Node) (commands : list string) :
  fits fuel root -> forallb movingSlice commands = true ->
  forall (i : nat) (result : list Node), Forall (fits fuel) result ->
  exists r, commandsLoop fuel root i commands result = Some r.
Proof.
  intros Hroot. induction commands as [|cmd commands IH]; intros Hm i result Hres; simpl.
  - now eauto.
  - simpl in Hm. apply andb_prop in Hm. destruct Hm as [Hc Hm].
    destruct (command_returns fuel root i cmd result Hroot Hres Hc)
      as [E|(result' & E & Hres')]; rewrite E; [now eauto|].
    now apply IH.
Qed.

(** The whole query returns when none of its slice commands has step 0,
    on every document whose tree fits the fuel. *)
Lemma JSONPath_returns (Unmarshal : string -> Node + Error) (fuel : nat)
    (data path : string) :
  (forall root, Unmarshal data = inl root -> fits fuel root) ->
  (forall commands, ParseJSONPath path = Some (commands, None) ->
     forallb movingSlice commands = true) ->
  exists r, returned (JSONPath Unmarshal fuel data path) = Some r.
Proof.
  intros Hfit Hmove.
  destruct (ParseJSONPath_total path) as (commands & [err|] & Hp).
  - unfold JSONPath, returned, ret. rewrite Hp. simpl. now eauto.
  - rewrite (JSONPath_returned _ fuel data path commands Hp).
    destruct (Unmarshal data) as [root|err] eqn:U; [|now eauto].
    apply commandsLoop_returns; [now apply Hfit|now apply Hmove|constructor].
Qed.

(** The example document fits six turns: the bound of [JSONPath_returns]
    is met by the trees of the examples. *)
Lemma doc_array_fits : fits 6 doc_array.
Proof. simpl. repeat split; lia. Qed.

(** * Further properties of the tokenizer *)

Lemma advance_Done (b : buffer) (result result' : list string) (err : option Error) :
  advance b result = Done result' err -> result' = result /\ err = None.
Proof.
  unfold advance, step.
  destruct (index b + 1 <? length b); [discriminate|].
  intros [= <- <-]. now split.
Qed.

(** A turn inside the input leaves the loop with an error only through one
    of the [return nil, ...] statements. *)
Lemma parseTurn_error (b : buffer) (result result' : list string) (err : Error) :
  index b < length b ->
  parseTurn b result = Done result' (Some err) ->
  result' = [] /\ (err = errorEOF \/ err = errorSymbol).
Proof.
  intros Hi. unfold parseTurn, current.
  replace (index b <? length b) with true by (symmetry; now apply Z.ltb_lt).
  destruct (Ascii.eqb _ dollar).
  { intros H. apply advance_Done in H. destruct H; discriminate. }
  destruct (Ascii.eqb _ dot).
  { destruct (next b) as [[b1 c1] [e|]].
    - intros H. apply advance_Done in H. destruct H; discriminate.
    - destruct (Ascii.eqb c1 dot).
      + intros H. apply advance_Done in H. destruct H; discriminate.
      + destruct (skipAny b1 childEnd) as [b2 [[| | | |code]|]];
          intros H; apply advance_Done in H; destruct H; discriminate. }
  destruct (Ascii.eqb _ bracketL); [|intros [= <- <-]; auto].
  destruct (next b) as [[b1 c1] [e|]]; [intros [= <- <-]; auto|].
  destruct (Ascii.eqb c1 quote).
  - destruct (buf_string b1 quote) as [b2 [e|]]; [intros [= <- <-]; auto|].
    destruct (next b2) as [[b3 c3] [e|]]; [intros [= <- <-]; auto|].
    destruct (negb (Ascii.eqb c3 bracketR)); [intros [= <- <-]; auto|].
    intros H. apply advance_Done in H. destruct H; discriminate.
  - destruct (skip b1 bracketR) as [b2 [e|]]; [intros [= <- <-]; auto|].
    intros H. apply advance_Done in H. destruct H; discriminate.
Qed.

Lemma parseLoop_error (fuel : nat) (b : buffer) (result commands : list string)
    (err : Error) :
  index b < length b ->
  parseLoop fuel b result = Some (commands, Some err) ->
  commands = [] /\ (err = errorEOF \/ err = errorSymbol).
Proof.
  revert b result. induction fuel as [|fuel IH]; intros b result Hi; simpl; [discriminate|].
  destruct (parseTurn b result) as [r [e|]|b' r'] eqn:T.
  - intros [= <- <-]. now apply (parseTurn_error b result).
  - discriminate.
  - apply IH. apply parseTurn_forward in T. lia.
Qed.

(** X1: the tokenizer returns on every path: its loop needs at most one
    turn per byte of the path and one more. *)
Theorem X1_tokenizer_returns (path : string) :
  exists commands err, ParseJSONPath path = Some (commands, err).
Proof.
  destruct (ParseJSONPath_total path) as (commands & err & H). eauto.
Qed.

(** X2: when the tokenizer returns an error it returns no command; the
    error is [io.EOF] exactly for the empty path, and for every other path
    it is the unexpected-end or the unexpected-symbol error, never the
    request error. *)
Theorem X2_tokenizer_errors (path : string) (commands : list string) (err : Error) :
  ParseJSONPath path = Some (commands, Some err) ->
  commands = []
  /\ (err = io_EOF <-> path = EmptyString)
  /\ (path <> EmptyString -> err = errorEOF \/ err = errorSymbol).
Proof.
  destruct path as [|c rest].
  - intros [= <- <-]. repeat split; congruence.
  - unfold ParseJSONPath. intros H.
    apply parseLoop_error in H; [|simpl; lia].
    destruct H as [-> H]. split; [reflexivity|]. split; [|now intros _].
    split; [|discriminate]. intros ->. destruct H; discriminate.
Qed.

Lemma X2_tokenizer_errors_witness :
  ParseJSONPath "$.a['b" = Some ([], Some errorEOF)
  /\ ([] : list string) = []
  /\ (errorEOF = errorEOF \/ errorEOF = errorSymbol).
Proof.
  split; [reflexivity|].
  destruct (X2_tokenizer_errors "$.a['b" [] errorEOF eq_refl) as (H1 & _ & H3).
  split; [exact H1|]. apply H3. discriminate.
Defined.

(** X3: a path whose first byte is none of [$], [.] and [[] is rejected
    with the unexpected-symbol error, whatever follows. *)
Theorem X3_unexpected_first_symbol (c : ascii) (rest : string) :
  c <> dollar -> c <> dot -> c <> bracketL ->
  ParseJSONPath (String c rest) = Some ([], Some errorSymbol).
Proof.
  intros H1 H2 H3. unfold ParseJSONPath.
  assert (Hc : current (newBuffer (String c rest)) = (c, None)).
  { unfold current, newBuffer, byte_at. cbn [index length data].
    destruct (0 <? Z.of_nat (String.length (String c rest))) eqn:E; [reflexivity|].
    apply Z.ltb_ge in E. simpl String.length in E. lia. }
  cbn [parseLoop]. unfold parseTurn. rewrite Hc.
  apply Ascii.eqb_neq in H1, H2, H3. now rewrite H1, H2, H3.
Qed.

Lemma X3_unexpected_first_symbol_witness :
  ParseJSONPath "a.b" = Some ([], Some errorSymbol).
Proof.
  apply (X3_unexpected_first_symbol "a" ".b"); discriminate.
Defined.

(** * Further properties of the evaluator *)

(** ** The results are nodes of the document *)

Section hereditary.

Variable P : Node -> Prop.
Hypothesis P_inheritors : forall n, P n -> Forall P (inheritors n).

Lemma recursiveChildren_Forall (n : Node) : P n -> Forall P (recursiveChildren n).
Proof.
  induction n as [v|kids IH|kids IH] using Node_tree_ind; intros Hn.
  - constructor.
  - pose proof (P_inheritors _ Hn) as Hk. unfold inheritors in Hk.
    simpl in Hk |- *. apply Forall_app. split.
    + apply Forall_forall. intros x Hx. apply filter_In in Hx.
      now apply (proj1 (Forall_forall _ _) Hk).
    + clear Hn. induction IH as [|[k v] kids Hv _ IHk]; simpl; [constructor|].
      inversion Hk; subst. apply Forall_app. split; [|now apply IHk].
      destruct (isContainer v); [now apply Hv|constructor].
  - pose proof (P_inheritors _ Hn) as Hk. unfold inheritors in Hk.
    simpl in Hk |- *. apply Forall_app. split.
    + apply Forall_forall. intros x Hx. apply filter_In in Hx.
      now apply (proj1 (Forall_forall _ _) Hk).
    + clear Hn. induction IH as [|[k v] kids Hv _ IHk]; simpl; [constructor|].
      inversion Hk; subst. apply Forall_app. split; [|now apply IHk].
      destruct (isContainer v); [now apply Hv|constructor].
Qed.

Lemma sliceRange_Forall (fuel : nat) (from to step : Z) (result : list Node) :
  Forall P result ->
  forall acc r, Forall P acc ->
  sliceRange fuel result from to step acc = Some r -> Forall P r.
Proof.
  induction 1 as [|element result He _ IH]; intros acc r Ha; simpl.
  - now intros [= <-].
  - destruct (IsArray element); [|now apply IH].
    destruct (sliceLoop fuel element from to step acc) as [acc'|] eqn:E; [|discriminate].
    apply IH.
    apply (sliceLoop_Forall P element to step (P_inheritors _ He) fuel from acc acc' Ha E).
Qed.

Lemma command_Forall (fuel : nat) (root : Node) (i : nat) (cmd : string)
    (result result' : list Node) :
  P root -> Forall P result ->
  command fuel root i cmd result = Some (inr result') -> Forall P result'.
Proof.
  intros Hroot Hres. unfold command.
  destruct (String.eqb cmd "$").
  { intros [= <-]. destruct (Nat.eqb i 0); [|exact Hres].
    apply Forall_app. split; [exact Hres|]. now constructor. }
  destruct (String.eqb cmd "..").
  { intros [= <-]. apply Forall_app. split; [exact Hres|].
    apply Forall_flat_map. apply Forall_forall. intros x Hx.
    apply recursiveChildren_Forall. now apply (proj1 (Forall_forall _ _) Hres). }
  destruct (String.eqb cmd "*").
  { intros [= <-]. apply Forall_flat_map. apply Forall_forall. intros x Hx.
    apply P_inheritors. now apply (proj1 (Forall_forall _ _) Hres). }
  destruct (strings.Contains cmd ":").
  { destruct (sliceBounds _) as [err|[[from to] step]]; [discriminate|].
    destruct (sliceRange fuel result from to step []) as [r|] eqn:E; [|discriminate].
    intros [= <-]. apply (sliceRange_Forall fuel from to step result Hres [] r); auto. }
  destruct (strings.HasPrefix cmd "?("); [now intros [= <-]|].
  intros [= <-]. apply byKeys_Forall.
  apply Forall_forall. intros x Hx. apply P_inheritors.
  now apply (proj1 (Forall_forall _ _) Hres).
Qed.

Lemma commandsLoop_Forall (fuel : nat) (root : Node) (commands : list string) :
  P root ->
  forall (i : nat) (result nodes : list Node) (err : option Error),
  Forall P result ->
  commandsLoop fuel root i commands result = Some (nodes, err) -> Forall P nodes.
Proof.
  intros Hroot. induction commands as [|cmd commands IH]; intros i result nodes err Hres; simpl.
  - now intros [= <- _].
  - destruct (command fuel root i cmd result) as [[e|result']|] eqn:C.
    + intros [= <- _]. constructor.
    + apply IH. now apply (command_Forall fuel root i cmd result result').
    + discriminate.
Qed.

End hereditary.

Lemma within_inheritors (root n : Node) : within root n -> Forall (within root) (inheritors n).
Proof.
  intros H. apply Forall_forall. intros c Hc. now apply (within_child root n c).
Qed.

(** X4: every node that [JSONPath] returns is a node of the document: the
    root or one of its descendants.  The evaluator never builds a node. *)
Theorem X4_results_within_document (Unmarshal : string -> Node + Error) (fuel : nat)
    (data path : string) (root : Node) (nodes : list Node) (err : option Error) :
  Unmarshal data = inl root ->
  returned (JSONPath Unmarshal fuel data path) = Some (nodes, err) ->
  Forall (within root) nodes.
Proof.
  intros Hu. destruct (ParseJSONPath path) as [[commands [e|]]|] eqn:Hp.
  - unfold JSONPath, returned, ret. rewrite Hp. simpl. intros [= <- _]. constructor.
  - rewrite (JSONPath_commands _ fuel data path commands root Hp Hu).
    apply (commandsLoop_Forall (within root) (within_inheritors root));
      constructor.
  - unfold JSONPath, returned, ret. rewrite Hp. discriminate.
Qed.

Lemma X4_results_within_document_witness :
  parsesTo doc_prices "{}" = inl doc_prices
  /\ returned (JSONPath (parsesTo doc_prices) 2 "{}" "$..price")
     = Some ([num 5; num 7], None)
  /\ Forall (within doc_prices) [num 5; num 7].
Proof.
  split; [reflexivity|]. split; [reflexivity|].
  apply (X4_results_within_document (parsesTo doc_prices) 2 "{}" "$..price"
           doc_prices [num 5; num 7] None); reflexivity.
Defined.

(** ** The descendant-container list, by membership *)

Lemma below_trans_child (n c x : Node) :
  In c (inheritors n) -> below c x -> below n x.
Proof.
  intros Hc. induction 1 as [d Hd|d e _ IH He].
  - apply (below_deeper n c d); [now apply below_child|exact Hd].
  - now apply (below_deeper n d e).
Qed.

Lemma recursiveChildren_below (n x : Node) :
  In x (recursiveChildren n) -> below n x.
Proof.
  revert x. induction n as [v|kids IH|kids IH] using Node_tree_ind; intros x;
    rewrite recursiveChildren_eq; unfold containerChildren, inheritors; simpl.
  - intros [].
  - intros H. apply in_app_or in H. destruct H as [H|H].
    + apply filter_In in H. apply below_child. now apply H.
    + apply in_flat_map in H. destruct H as (c & Hc & Hx).
      apply filter_In in Hc. destruct Hc as [Hc _].
      apply (below_trans_child _ c); [exact Hc|].
      apply in_map_iff in Hc. destruct Hc as ([k c'] & <- & Hk).
      now apply (proj1 (Forall_forall _ _) IH (k, c') Hk).
  - intros H. apply in_app_or in H. destruct H as [H|H].
    + apply filter_In in H. apply below_child. now apply H.
    + apply in_flat_map in H. destruct H as (c & Hc & Hx).
      apply filter_In in Hc. destruct Hc as [Hc _].
      apply (below_trans_child _ c); [exact Hc|].
      apply in_map_iff in Hc. destruct Hc as ([k c'] & <- & Hk).
      now apply (proj1 (Forall_forall _ _) IH (k, c') Hk).
Qed.

Lemma inheritors_container (n c : Node) : In c (inheritors n) -> isContainer n = true.
Proof. destruct n; simpl; [intros []|reflexivity|reflexivity]. Qed.

Lemma recursiveChildren_child (n c : Node) :
  In c (inheritors n) -> isContainer c = true -> In c (recursiveChildren n).
Proof.
  intros Hc Hk. rewrite recursiveChildren_eq. apply in_or_app. left.
  unfold containerChildren. rewrite (inheritors_container n c Hc).
  apply filter_In. now split.
Qed.

Lemma recursiveChildren_deeper (n c d : Node) :
  In c (recursiveChildren n) -> In d (recursiveChildren c) -> In d (recursiveChildren n).
Proof.
  revert c d. induction n as [v|kids IH|kids IH] using Node_tree_ind; intros c d;
    rewrite (recursiveChildren_eq (_ kids)) || (intros []);
    unfold containerChildren, inheritors; simpl.
  - intros Hc Hd. apply in_or_app. right. apply in_flat_map.
    apply in_app_or in Hc. destruct Hc as [Hc|Hc].
    + exists c. now split.
    + apply in_flat_map in Hc. destruct Hc as (c' & Hc' & Hc).
      exists c'. split; [exact Hc'|].
      apply filter_In in Hc'. destruct Hc' as [Hc' _].
      apply in_map_iff in Hc'. destruct Hc' as ([k c''] & <- & Hk).
      apply (proj1 (Forall_forall _ _) IH (k, c'') Hk c d Hc Hd).
  - intros Hc Hd. apply in_or_app. right. apply in_flat_map.
    apply in_app_or in Hc. destruct Hc as [Hc|Hc].
    + exists c. now split.
    + apply in_flat_map in Hc. destruct Hc as (c' & Hc' & Hc).
      exists c'. split; [exact Hc'|].
      apply filter_In in Hc'. destruct Hc' as [Hc' _].
      apply in_map_iff in Hc'. destruct Hc' as ([k c''] & <- & Hk).
      apply (proj1 (Forall_forall _ _) IH (k, c'') Hk c d Hc Hd).
Qed.

(** X5: the descendant-container list of a node holds exactly the proper
    descendants of the node that are containers: every container below the
    node occurs in it, at any depth, and nothing else does. *)
Theorem X5_recursiveChildren_members (n x : Node) :
  In x (recursiveChildren n) <-> isContainer x = true /\ below n x.
Proof.
  split.
  - intros H. split.
    + now apply (proj1 (Forall_forall _ _) (recursiveChildren_containers n)).
    + now apply recursiveChildren_below.
  - intros [Hk Hb]. induction Hb as [c Hc|c d Hb IH Hd].
    + now apply recursiveChildren_child.
    + apply (recursiveChildren_deeper n c d).
      * apply IH. now apply (inheritors_container c d).
      * now apply recursiveChildren_child.
Qed.

(** ** Where an error comes from *)

Lemma command_error (fuel : nat) (root : Node) (i : nat) (cmd : string)
    (result : list Node) (err : Error) :
  command fuel root i cmd result = Some (inl err) ->
  err = errorRequest /\ validSlice cmd = false.
Proof.
  unfold command, validSlice.
  destruct (String.eqb cmd "$"); [discriminate|].
  destruct (String.eqb cmd ".."); [discriminate|].
  destruct (String.eqb cmd "*"); [discriminate|].
  destruct (strings.Contains cmd ":").
  - destruct (sliceBounds _) as [e|[[from to] step]] eqn:B.
    + intros [= <-]. split; [now apply (sliceBounds_error _ _ B)|reflexivity].
    + now destruct (sliceRange _ _ _ _ _ _).
  - now destruct (strings.HasPrefix cmd "?(").
Qed.

Lemma commandsLoop_error (fuel : nat) (root : Node) (commands : list string) :
  forall (i : nat) (result nodes : list Node) (err : Error),
  commandsLoop fuel root i commands result = Some (nodes, Some err) ->
  err = errorRequest /\ exists cmd, In cmd commands /\ validSlice cmd = false.
Proof.
  induction commands as [|cmd commands IH]; intros i result nodes err; simpl.
  - discriminate.
  - destruct (command fuel root i cmd result) as [[e|result']|] eqn:C.
    + intros [= _ <-]. apply command_error in C. destruct C as [-> C].
      split; [reflexivity|]. exists cmd. split; [now left|exact C].
    + intros H. apply IH in H. destruct H as [-> (c & Hc & Hv)].
      split; [reflexivity|]. exists c. split; [now right|exact Hv].
    + discriminate.
Qed.

(** X6: an error that [JSONPath] returns is, in this order of precedence,
    the error of the tokenizer (the document parser is then not called), the
    error of the document parser, or the request error of a slice command
    with malformed fields; nothing else in the evaluation fails. *)
Theorem X6_error_origin (Unmarshal : string -> Node + Error) (fuel : nat)
    (data path : string) (nodes : list Node) (err : Error) :
  returned (JSONPath Unmarshal fuel data path) = Some (nodes, Some err) ->
  (exists commands, ParseJSONPath path = Some (commands, Some err)
                    /\ parsed (JSONPath Unmarshal fuel data path) = [])
  \/ (exists commands, ParseJSONPath path = Some (commands, None)
                       /\ Unmarshal data = inr err)
  \/ (exists commands root cmd,
        ParseJSONPath path = Some (commands, None)
        /\ Unmarshal data = inl root
        /\ err = errorRequest
        /\ In cmd commands /\ strings.Contains cmd ":" = true
        /\ sliceBounds (strings.Split cmd ":") = inl errorRequest).
Proof.
  destruct (ParseJSONPath path) as [[commands [e|]]|] eqn:Hp.
  - unfold JSONPath, returned, parsed, ret. rewrite Hp. simpl.
    intros [= _ <-]. left. now exists commands.
  - rewrite (JSONPath_returned _ fuel data path commands Hp).
    destruct (Unmarshal data) as [root|e] eqn:U.
    + intros H. apply commandsLoop_error in H. destruct H as [-> (cmd & Hc & Hv)].
      right. right. exists commands, root, cmd.
      repeat split; try assumption; try reflexivity;
        unfold validSlice in Hv; destruct (strings.Contains cmd ":"); try discriminate;
        try reflexivity.
      destruct (sliceBounds _) as [e|b] eqn:B; [|discriminate].
      now rewrite (sliceBounds_error _ _ B).
    + intros [= _ <-]. right. left. now exists commands.
  - unfold JSONPath, returned, ret. rewrite Hp. discriminate.
Qed.

Lemma X6_error_origin_witness :
  returned (JSONPath (rejects 3) 0 "{" "$.a") = Some ([], Some (DocumentError 3))
  /\ ParseJSONPath "$.a" = Some (["$"; "a"], None)
  /\ rejects 3 "{" = inr (DocumentError 3).
Proof.
  split; [reflexivity|].
  destruct (X6_error_origin (rejects 3) 0 "{" "$.a" [] (DocumentError 3) eq_refl)
    as [(c & H & _)|[(c & H & U)|(c & r & k & _ & U & _)]].
  - discriminate.
  - split; [reflexivity|exact U].
  - discriminate.
Defined.

(** ** Filter expressions *)

Lemma Split_head (a : ascii) (s : string) (sep : ascii) :
  Ascii.eqb a sep = false ->
  exists field fields, strings.Split (String a s) sep = String a field :: fields.
Proof.
  intros H. simpl. rewrite H. destruct (strings.Split s sep); now eauto.
Qed.

Lemma Atoi_not_a_number (a : ascii) (s : string) :
  Ascii.eqb a "-" = false -> Ascii.eqb a "+" = false ->
  uint_of_char a (Some Decimal.Nil) = None ->
  strconv.Atoi (String a s) = None.
Proof.
  intros H1 H2 H3. unfold strconv.Atoi. rewrite H1, H2. simpl.
  destruct (NilEmpty.uint_of_string s) as [d|]; [|reflexivity].
  replace (uint_of_char a (Some d)) with (@None Decimal.uint); [reflexivity|].
  revert H3. unfold uint_of_char.
  destruct a as [[|] [|] [|] [|] [|] [|] [|] [|]]; try reflexivity; discriminate.
Qed.

(** X7: a filter command, one that starts with [?(], leaves the working
    result as it is when the expression holds no colon; when it holds one
    the slice case of the switch takes the command first and its first field
    is no integer, so the query fails with the request error. *)
Theorem X7_filter_commands (fuel : nat) (root : Node) (i : nat) (cmd : string)
    (result : list Node) :
  strings.HasPrefix cmd "?(" = true ->
  command fuel root i cmd result
  = Some (if strings.Contains cmd ":" then inl errorRequest else inr result).
Proof.
  intros Hp. unfold strings.HasPrefix in Hp.
  destruct cmd as [|a [|b rest]]; cbn [String.prefix] in Hp; try discriminate.
  { destruct (Ascii.ascii_dec "?" a); discriminate. }
  destruct (Ascii.ascii_dec "?" a) as [<-|]; [|discriminate].
  destruct (Ascii.ascii_dec "(" b) as [<-|]; [|discriminate].
  destruct (strings.Contains (String "?" (String "(" rest)) ":") eqn:C.
  - rewrite command_slice by assumption.
    rewrite sliceBounds_malformed; [reflexivity|]. right.
    destruct (Split_head "?" (String "(" rest) ":" eq_refl) as (field & fields & E).
    exists 0%nat, (String "?" field). rewrite E. repeat split; [discriminate|].
    now apply Atoi_not_a_number.
  - unfold command. rewrite C.
    change (String.eqb (String "?" (String "(" rest)) "$") with false.
    change (String.eqb (String "?" (String "(" rest)) "..") with false.
    change (String.eqb (String "?" (String "(" rest)) "*") with false.
    unfold strings.HasPrefix. cbn [String.prefix].
    destruct (Ascii.ascii_dec "?" "?") as [_|N]; [|now elim N].
    destruct (Ascii.ascii_dec "(" "(") as [_|N]; [|now elim N].
    now rewrite Hp.
Qed.

Lemma X7_filter_commands_witness :
  strings.HasPrefix "?(@.price < 10)" "?(" = true
  /\ command 0 doc_prices 2 "?(@.price < 10)" [num 5; num 7] = Some (inr [num 5; num 7])
  /\ command 0 doc_prices 2 "?(@.t == '1:2')" [num 5; num 7] = Some (inl errorRequest).
Proof.
  split; [reflexivity|]. split.
  - apply (X7_filter_commands 0 doc_prices 2 "?(@.price < 10)" [num 5; num 7] eq_refl).
  - apply (X7_filter_commands 0 doc_prices 2 "?(@.t == '1:2')" [num 5; num 7] eq_refl).
Defined.

(** ** Array indices as keys *)

Lemma string_of_uint_digits (d : Decimal.uint) :
  allBytes isDigit (NilEmpty.string_of_uint d) = true.
Proof. induction d; simpl; try reflexivity; exact IHd. Qed.

Lemma Itoa_bytes (i : Z) :
  allBytes (fun c => isDigit c || Ascii.eqb c "-") (strconv.Itoa i) = true.
Proof.
  assert (A : forall d, allBytes (fun c => isDigit c || Ascii.eqb c "-")
                          (NilZero.string_of_uint d) = true).
  { intros d. unfold NilZero.string_of_uint.
    assert (B : allBytes (fun c => isDigit c || Ascii.eqb c "-")
                  (NilEmpty.string_of_uint d) = true).
    { induction d; simpl; try reflexivity; exact IHd. }
    destruct d; exact B || reflexivity. }
  unfold strconv.Itoa. destruct (Z.to_int i) as [d|d]; simpl.
  - apply A.
  - apply A.
Qed.

Lemma allBytes_Contains (p : ascii -> bool) (s : string) (c : ascii) :
  allBytes p s = true -> p c = false -> strings.Contains s c = false.
Proof.
  intros Hs Hc. induction s as [|a s IH]; simpl in *; [reflexivity|].
  apply andb_prop in Hs. destruct Hs as [Ha Hs].
  rewrite (IH Hs), orb_false_r.
  destruct (Ascii.eqb_spec a c) as [->|]; [congruence|reflexivity].
Qed.

Lemma Split_no_separator (s : string) (sep : ascii) :
  strings.Contains s sep = false -> strings.Split s sep = [s].
Proof.
  induction s as [|a s IH]; simpl; [reflexivity|].
  intros H. apply orb_false_elim in H. destruct H as [Ha Hs].
  rewrite Ha, (IH Hs). reflexivity.
Qed.

Lemma Itoa_isKeyCommand (i : Z) : isKeyCommand (strconv.Itoa i) = true.
Proof.
  pose proof (Itoa_bytes i) as B. unfold isKeyCommand.
  rewrite (allBytes_Contains _ _ ":" B eq_refl).
  destruct (strconv.Itoa i) as [|a s] eqn:E; [reflexivity|].
  simpl in B. apply andb_prop in B. destruct B as [Ba Bs].
  assert (N : forall c, (isDigit c || Ascii.eqb c "-") = false ->
                        Ascii.eqb a c = false).
  { intros c Hc. destruct (Ascii.eqb_spec a c) as [->|]; [congruence|reflexivity]. }
  unfold strings.HasPrefix. cbn [String.prefix String.eqb].
  rewrite (N "$"%char eq_refl), (N "."%char eq_refl), (N "*"%char eq_refl).
  destruct (Ascii.ascii_dec "?" a) as [<-|]; [discriminate|reflexivity].
Qed.

Lemma isKeyCommand_command (fuel : nat) (root : Node) (i : nat) (cmd : string)
    (result : list Node) :
  isKeyCommand cmd = true ->
  command fuel root i cmd result = Some (inr (byKeys (strings.Split cmd ",") result)).
Proof.
  intros Hk. unfold isKeyCommand in Hk.
  repeat (apply andb_prop in Hk; destruct Hk as [Hk ?]).
  repeat match goal with H : negb _ = true |- _ => apply negb_true_iff in H end.
  unfold command.
  repeat match goal with H : _ = false |- _ => rewrite H; clear H end.
  reflexivity.
Qed.

(** X8: the decimal text of an integer [i] as a command, as in [$.a[2]] or
    [$.a[-1]], is a key lookup: on nodes whose children sit under the keys
    0, 1, ... it gives the child at position [i] of each node that has one,
    in the order of the result, and nothing for a negative [i], which is
    not counted from the end. *)
Theorem X8_index_command (fuel : nat) (root : Node) (k : nat) (i : Z)
    (result : list Node) :
  Forall wellIndexed result ->
  command fuel root k (strconv.Itoa i) result
    = Some (inr (flat_map (fun element =>
                   if 0 <=? i
                   then optionNode (nth_error (inheritors element) (Z.to_nat i))
                   else []) result))
  /\ (i < 0 -> command fuel root k (strconv.Itoa i) result = Some (inr [])).
Proof.
  intros Hw.
  assert (E : command fuel root k (strconv.Itoa i) result
              = Some (inr (flat_map (fun element =>
                   if 0 <=? i
                   then optionNode (nth_error (inheritors element) (Z.to_nat i))
                   else []) result))).
  { rewrite isKeyCommand_command by apply Itoa_isKeyCommand.
    rewrite Split_no_separator
      by apply (allBytes_Contains _ _ "," (Itoa_bytes i) eq_refl).
    unfold byKeys. cbn [flat_map]. rewrite List.app_nil_r. do 2 f_equal.
    induction Hw as [|element result He _ IH]; simpl; [reflexivity|].
    rewrite IH. f_equal.
    rewrite (child_wellIndexed element i He).
    destruct element as [v|kids|kids]; simpl.
    - destruct (0 <=? i); [|reflexivity]. now destruct (Z.to_nat i).
    - now destruct (0 <=? i); [destruct (nth_error _ _)|].
    - now destruct (0 <=? i); [destruct (nth_error _ _)|]. }
  split; [exact E|].
  intros Hneg. rewrite E. do 2 f_equal.
  replace (0 <=? i) with false by (symmetry; apply Z.leb_gt; lia).
  clear. induction result; simpl; [reflexivity|assumption].
Qed.

Lemma X8_index_command_witness :
  Forall wellIndexed [mkArray [num 10; num 20; num 30]]
  /\ command 0 doc_array 2 "1" [mkArray [num 10; num 20; num 30]] = Some (inr [num 20])
  /\ command 0 doc_array 2 "-1" [mkArray [num 10; num 20; num 30]] = Some (inr []).
Proof.
  assert (W : Forall wellIndexed [mkArray [num 10; num 20; num 30]]).
  { constructor; [apply mkArray_wellIndexed|constructor]. }
  split; [exact W|].
  destruct (X8_index_command 0 doc_array 2 1 _ W) as [H1 _].
  destruct (X8_index_command 0 doc_array 2 (-1) _ W) as [_ H2].
  split; [exact H1|]. apply H2. lia.
Defined.

(** ** More on slices *)

Lemma sliceSpec_whole (elems : list Node) :
  Z.of_nat (List.length elems) <= Int.MaxInt64 ->
  sliceSpec elems 0 Int.MaxInt64 1 = elems.
Proof.
  intros Hl. rewrite (sliceSpec_segment elems Int.MaxInt64 _ 0 (Z.le_refl 0) eq_refl).
  simpl skipn. apply firstn_all2. unfold Int.MaxInt64 in *. lia.
Qed.

(** X9: on arrays the full slice [:] selects what the wildcard [*]
    selects: all the elements of every array of the result, in order. *)
Theorem X9_full_slice_is_wildcard (fuel : nat) (root : Node) (i : nat)
    (result : list Node) :
  Forall (fun element =>
            IsArray element = true /\ wellIndexed element
            /\ (List.length (inheritors element) < fuel)%nat
            /\ Z.of_nat (List.length (inheritors element)) <= Int.MaxInt64) result ->
  command fuel root i ":" result = Some (inr (flat_map inheritors result))
  /\ command fuel root i ":" result = command fuel root i "*" result.
Proof.
  intros Hall.
  assert (E : command fuel root i ":" result = Some (inr (flat_map inheritors result))).
  { rewrite command_slice by reflexivity.
    change (sliceBounds (strings.Split ":" ":")) with (@inr Error _ (0, Int.MaxInt64, 1)).
    cbv iota beta.
    assert (Hs : 0 < 1 <= Int.MaxInt64) by (unfold Int.MaxInt64; lia).
    assert (Hf : Forall (fun element => IsArray element = true ->
                   wellIndexed element
                   /\ (List.length (inheritors element) < fuel)%nat) result).
    { apply Forall_forall. intros element He _.
      destruct (proj1 (Forall_forall _ _) Hall element He) as (_ & Hw & Hl & _).
      now split. }
    rewrite (sliceRange_sliceSpec fuel 0 Int.MaxInt64 1 result []
               (Z.le_refl 0) Hs (Z.le_refl _) Hf).
    simpl. do 2 f_equal.
    induction Hall as [|element result (Ha & _ & _ & Hl) _ IH]; simpl; [reflexivity|].
    rewrite Ha, IH.
    - f_equal. now apply sliceSpec_whole.
    - now inversion Hf. }
  split; [exact E|]. rewrite E. reflexivity.
Qed.

Lemma X9_full_slice_is_wildcard_witness :
  command 4 doc_array 2 ":" [mkArray [num 10; num 20; num 30]]
  = command 4 doc_array 2 "*" [mkArray [num 10; num 20; num 30]].
Proof.
  apply (X9_full_slice_is_wildcard 4 doc_array 2 [mkArray [num 10; num 20; num 30]]).
  constructor; [|constructor].
  split; [reflexivity|]. split; [apply mkArray_wellIndexed|].
  rewrite inheritors_mkArray. simpl. unfold Int.MaxInt64. split; lia.
Defined.

Lemma sliceLoop_nothing (fuel : nat) (element : Node) (from to step : Z) (acc : list Node) :
  wellIndexed element ->
  from < 0 \/ to <= from \/ Z.of_nat (List.length (inheritors element)) <= from ->
  sliceLoop (S fuel) element from to step acc = Some acc.
Proof.
  intros Hw H. simpl. destruct (from <? to) eqn:L; [|reflexivity].
  apply Z.ltb_lt in L. rewrite child_wellIndexed by assumption.
  destruct (0 <=? from) eqn:L0; [|reflexivity]. apply Z.leb_le in L0.
  destruct H as [H|[H|H]]; try lia.
  assert (E : nth_error (inheritors element) (Z.to_nat from) = None)
    by (apply nth_error_None; lia).
  now rewrite E.
Qed.

(** X10: a slice whose [from] is negative, or not below [to], or not below
    the length of the array selects nothing from a well-indexed array, with
    any step, 0 included: a negative [from] is not counted from the end of
    the array. *)
Theorem X10_slice_selects_nothing (fuel : nat) (root : Node) (i : nat) (cmd : string)
    (result : list Node) (from to step : Z) :
  strings.Contains cmd ":" = true ->
  sliceBounds (strings.Split cmd ":") = inr (from, to, step) ->
  Forall (fun element => IsArray element = true ->
            wellIndexed element
            /\ (from < 0 \/ to <= from
                \/ Z.of_nat (List.length (inheritors element)) <= from)) result ->
  command (S fuel) root i cmd result = Some (inr []).
Proof.
  intros Hc Hb Hall. rewrite command_slice by assumption. rewrite Hb.
  replace (sliceRange (S fuel) result from to step []) with (Some (@nil Node));
    [reflexivity|].
  symmetry. induction Hall as [|element result He _ IH]; [reflexivity|].
  cbn [sliceRange]. destruct (IsArray element); [|exact IH].
  destruct (He eq_refl) as [Hw Hn].
  now rewrite (sliceLoop_nothing fuel element from to step [] Hw Hn).
Qed.

Lemma X10_slice_selects_nothing_witness :
  strings.Contains "-2:" ":" = true
  /\ sliceBounds (strings.Split "-2:" ":") = inr (-2, Int.MaxInt64, 1)
  /\ command 1 doc_array 2 "-2:" [mkArray [num 10; num 20; num 30]] = Some (inr []).
Proof.
  split; [reflexivity|]. split; [reflexivity|].
  apply (X10_slice_selects_nothing 0 doc_array 2 "-2:"
           [mkArray [num 10; num 20; num 30]] (-2) Int.MaxInt64 1 eq_refl eq_refl).
  constructor; [|constructor].
  intros _. split; [apply mkArray_wellIndexed|]. left. lia.
Defined.

Lemma sliceRange_pointwise (fuel : nat) (from to step : Z) (f : Node -> list Node)
    (result : list Node) :
  (forall element acc, In element result -> IsArray element = true ->
     sliceLoop fuel element from to step acc = Some (acc ++ f element)) ->
  forall acc,
  sliceRange fuel result from to step acc
  = Some (acc ++ flat_map (fun element => if IsArray element then f element else [])
                   result).
Proof.
  induction result as [|element result IH]; intros H acc; simpl.
  - now rewrite List.app_nil_r.
  - destruct (IsArray element) eqn:A.
    + rewrite (H element acc (or_introl eq_refl) A).
      rewrite IH by (intros e a He; apply H; now right).
      now rewrite <- List.app_assoc.
    + apply IH. intros e a He. apply H. now right.
Qed.

Lemma sliceDownSpec_last (elems : list Node) (from step : Z) (value : Node) :
  0 <= from -> from + step < 0 ->
  nth_error elems (Z.to_nat from) = Some value ->
  sliceDownSpec elems from step = [value].
Proof.
  intros H0 Hs Hv. unfold sliceDownSpec.
  rewrite Z.div_small by lia. simpl. now rewrite Z.add_0_r, Hv.
Qed.

Lemma sliceDownSpec_go (elems : list Node) (from step : Z) (value : Node) :
  step < 0 -> 0 <= from + step ->
  nth_error elems (Z.to_nat from) = Some value ->
  sliceDownSpec elems from step = value :: sliceDownSpec elems (from + step) step.
Proof.
  intros Hs H0 Hv. unfold sliceDownSpec.
  assert (D : from / (- step) = (from + step) / (- step) + 1).
  { rewrite <- Z.div_add by lia. f_equal. lia. }
  rewrite D.
  assert (0 <= (from + step) / (- step)) by (apply Z.div_pos; lia).
  replace (Z.to_nat ((from + step) / (- step) + 1))
    with (S (Z.to_nat ((from + step) / (- step)))) by lia.
  set (m := S (Z.to_nat ((from + step) / (- step)))).
  change (seq 0 (S m)) with (0%nat :: seq 1 m).
  cbn [flat_map]. rewrite Z.mul_0_l, Z.add_0_r, Hv. cbn [optionNode app].
  f_equal.
  rewrite <- seq_shift, flat_map_concat_map, map_map, <- flat_map_concat_map.
  apply flat_map_ext. intros k.
  replace (from + Z.of_nat (S k) * step) with (from + step + Z.of_nat k * step) by lia.
  reflexivity.
Qed.

(** With a negative step the loop walks down from [from] to the last index
    that is not negative; [to] plays no part once [from] is below it. *)
Lemma sliceLoop_sliceDownSpec (element : Node) (to step : Z) :
  wellIndexed element ->
  Int.MinInt64 <= step < 0 -> to <= Int.MaxInt64 ->
  forall (fuel : nat) (from : Z) (acc : list Node),
  0 <= from < Z.of_nat (List.length (inheritors element)) -> from < to ->
  from + 1 < Z.of_nat fuel ->
  sliceLoop fuel element from to step acc
  = Some (acc ++ sliceDownSpec (inheritors element) from step).
Proof.
  intros Hw Hs Ht. induction fuel as [|fuel IH]; intros from acc Hf Hlt Hfuel; [lia|].
  simpl.
  replace (from <? to) with true by (symmetry; apply Z.ltb_lt; lia).
  rewrite child_wellIndexed by assumption.
  replace (0 <=? from) with true by (symmetry; apply Z.leb_le; lia).
  destruct (nth_error (inheritors element) (Z.to_nat from)) as [value|] eqn:E.
  2:{ apply nth_error_None in E. lia. }
  unfold Int.add. rewrite wrap_in_range by (unfold Int.MinInt64 in *; lia).
  destruct (Z.lt_ge_cases (from + step) 0) as [Neg|Pos].
  - rewrite (sliceDownSpec_last _ from step value) by (lia || assumption).
    destruct fuel as [|fuel]; [lia|]. simpl.
    replace (from + step <? to) with true by (symmetry; apply Z.ltb_lt; lia).
    rewrite child_wellIndexed by assumption.
    replace (0 <=? from + step) with false by (symmetry; apply Z.leb_gt; lia).
    reflexivity.
  - rewrite (sliceDownSpec_go _ from step value) by (lia || assumption).
    rewrite IH by lia. now rewrite <- List.app_assoc.
Qed.

Lemma firstn_succ_nth_error (A : Type) (l : list A) (n : nat) (x : A) :
  nth_error l n = Some x -> firstn (S n) l = firstn n l ++ [x].
Proof.
  revert l. induction n as [|n IH]; intros [|y l]; simpl; try discriminate.
  - now intros [= ->].
  - intros H. f_equal. now apply IH.
Qed.

Lemma sliceDownSpec_reverse (elems : list Node) (n : nat) :
  (n < List.length elems)%nat ->
  sliceDownSpec elems (Z.of_nat n) (-1) = rev (firstn (S n) elems).
Proof.
  induction n as [|n IH]; intros Hn.
  - destruct elems as [|e elems]; [simpl in Hn; lia|]. reflexivity.
  - destruct (nth_error elems (S n)) as [value|] eqn:E.
    2:{ apply nth_error_None in E. lia. }
    rewrite (sliceDownSpec_go elems (Z.of_nat (S n)) (-1) value);
      [|lia|lia|now rewrite Nat2Z.id].
    replace (Z.of_nat (S n) + -1) with (Z.of_nat n) by lia.
    rewrite IH by lia.
    rewrite (firstn_succ_nth_error _ elems (S n) value E).
    now rewrite rev_app_distr.
Qed.

(** X11: a slice with a negative step and [0 <= from < to] walks each
    well-indexed array downwards from [from]: it gives the elements at
    [from], [from + step], ... down to the last index that is not negative
    ([to] does not bound the walk), and nothing for an array that [from] is
    beyond; with step -1 that is the reverse of the first [from + 1]
    elements. *)
Theorem X11_negative_step (fuel : nat) (root : Node) (i : nat) (cmd : string)
    (result : list Node) (from to step : Z) :
  strings.Contains cmd ":" = true ->
  sliceBounds (strings.Split cmd ":") = inr (from, to, step) ->
  step < 0 -> 0 <= from < to ->
  Forall (fun element => IsArray element = true ->
            wellIndexed element /\ (List.length (inheritors element) < fuel)%nat)
         result ->
  command fuel root i cmd result
    = Some (inr (flat_map (fun element =>
                   if IsArray element
                   then if from <? Z.of_nat (List.length (inheritors element))
                        then sliceDownSpec (inheritors element) from step
                        else []
                   else []) result))
  /\ (step = -1 -> forall elems, from < Z.of_nat (List.length elems) ->
        sliceDownSpec elems from step = rev (firstn (S (Z.to_nat from)) elems)).
Proof.
  intros Hc Hb Hs Hf Hall. split.
  - pose proof (sliceBounds_in_range _ _ _ _ Hb) as (_ & Rt & _).
    pose proof (sliceBounds_step_range _ _ _ _ Hb) as Rs.
    rewrite command_slice by assumption. rewrite Hb.
    rewrite (sliceRange_pointwise fuel from to step
               (fun element =>
                  if from <? Z.of_nat (List.length (inheritors element))
                  then sliceDownSpec (inheritors element) from step else [])).
    + reflexivity.
    + intros element acc He Ha.
      destruct (proj1 (Forall_forall _ _) Hall element He Ha) as [Hw Hl].
      destruct (from <? Z.of_nat (List.length (inheritors element))) eqn:L.
      * apply Z.ltb_lt in L. apply sliceLoop_sliceDownSpec; (assumption || lia).
      * apply Z.ltb_ge in L. rewrite List.app_nil_r.
        destruct fuel as [|fuel]; [lia|].
        apply sliceLoop_nothing; [assumption|]. right. right. exact L.
  - intros -> elems Hl.
    rewrite <- (Z2Nat.id from) at 1 by lia.
    apply sliceDownSpec_reverse. lia.
Qed.

Lemma X11_negative_step_witness :
  strings.Contains "2:9:-1" ":" = true
  /\ sliceBounds (strings.Split "2:9:-1" ":") = inr (2, 9, -1)
  /\ command 6 doc_array 2 "2:9:-1" [mkArray [num 10; num 20; num 30; num 40; num 50]]
     = Some (inr [num 30; num 20; num 10]).
Proof.
  split; [reflexivity|]. split; [reflexivity|].
  destruct (X11_negative_step 6 doc_array 2 "2:9:-1"
              [mkArray [num 10; num 20; num 30; num 40; num 50]] 2 9 (-1)
              eq_refl eq_refl) as [H _]; [lia|lia| |rewrite H; reflexivity].
  constructor; [|constructor]. intros _.
  split; [apply mkArray_wellIndexed|]. rewrite inheritors_mkArray. simpl. lia.
Defined.

(** ** Slice commands written from integers *)

Lemma digit_not_sign (c : ascii) :
  isDigit c = true -> Ascii.eqb c "-" = false /\ Ascii.eqb c "+" = false.
Proof.
  intros H. split.
  - destruct (Ascii.eqb_spec c "-") as [->|]; [discriminate|reflexivity].
  - destruct (Ascii.eqb_spec c "+") as [->|]; [discriminate|reflexivity].
Qed.

Lemma Atoi_digits (d : Decimal.uint) :
  d <> Decimal.Nil -> Int.in_range (Z.of_uint d) = true ->
  strconv.Atoi (NilZero.string_of_uint d) = Some (Z.of_uint d).
Proof.
  intros Hd Hr. pose proof (NilZero.usu d Hd) as U.
  assert (E : NilZero.string_of_uint d = NilEmpty.string_of_uint d) by now destruct d.
  pose proof (string_of_uint_digits d) as B. rewrite <- E in B.
  unfold strconv.Atoi. destruct (NilZero.string_of_uint d) as [|c rest]; [discriminate|].
  simpl in B. apply andb_prop in B. destruct B as [Bc _].
  destruct (digit_not_sign c Bc) as [-> ->]. cbn [orb].
  rewrite U. cbv zeta. now rewrite Hr.
Qed.

(** The decimal text of an [int] reads back as that [int]. *)
Lemma Atoi_Itoa (z : Z) : Int.in_range z = true -> strconv.Atoi (strconv.Itoa z) = Some z.
Proof.
  intros Hr. pose proof (DecimalZ.of_to z) as OT. unfold strconv.Itoa.
  destruct z as [|p|p].
  - reflexivity.
  - change (Z.to_int (Z.pos p)) with (Decimal.Pos (Pos.to_uint p)) in *.
    change (Z.of_int (Decimal.Pos (Pos.to_uint p))) with (Z.of_uint (Pos.to_uint p)) in OT.
    cbn [NilZero.string_of_int].
    rewrite Atoi_digits; [now rewrite OT| |now rewrite OT].
    apply DecimalPos.Unsigned.to_uint_nonnil.
  - change (Z.to_int (Z.neg p)) with (Decimal.Neg (Pos.to_uint p)) in *.
    change (Z.of_int (Decimal.Neg (Pos.to_uint p)))
      with (- Z.of_uint (Pos.to_uint p)) in OT.
    cbn [NilZero.string_of_int]. unfold strconv.Atoi.
    change (Ascii.eqb "-" "-") with true. cbn [orb].
    rewrite NilZero.usu by apply DecimalPos.Unsigned.to_uint_nonnil.
    cbv zeta. now rewrite OT, Hr.
Qed.

Lemma Itoa_no_separator (z : Z) (sep : ascii) :
  (isDigit sep || Ascii.eqb sep "-") = false ->
  strings.Contains (strconv.Itoa z) sep = false.
Proof. intros H. now apply (allBytes_Contains _ _ sep (Itoa_bytes z)). Qed.

Lemma Contains_append (a b : string) (sep : ascii) :
  strings.Contains (a ++ String sep b) sep = true.
Proof.
  induction a as [|c a IH]; simpl.
  - now rewrite Ascii.eqb_refl.
  - rewrite IH. apply orb_true_r.
Qed.

Lemma Split_append (a b : string) (sep : ascii) :
  strings.Contains a sep = false ->
  strings.Split (a ++ String sep b) sep = a :: strings.Split b sep.
Proof.
  induction a as [|c a IH]; simpl.
  - intros _. now rewrite Ascii.eqb_refl.
  - intros H. apply orb_false_elim in H. destruct H as [Hc Ha].
    now rewrite Hc, (IH Ha).
Qed.

Lemma Itoa_not_empty (z : Z) : strconv.Itoa z <> EmptyString.
Proof.
  unfold strconv.Itoa. destruct (Z.to_int z) as [d|d]; simpl; [|discriminate].
  destruct d; discriminate.
Qed.

Lemma sliceBounds_fields (f t s : Z) :
  Int.in_range f = true -> Int.in_range t = true -> Int.in_range s = true ->
  sliceBounds [strconv.Itoa f; strconv.Itoa t] = inr (f, t, 1)
  /\ sliceBounds [strconv.Itoa f; strconv.Itoa t; strconv.Itoa s] = inr (f, t, s).
Proof.
  intros Hf Ht Hs. unfold sliceBounds. cbn [List.length nth Z.of_nat].
  change (3 <? Z.of_nat 2) with false. change (3 <? Z.of_nat 3) with false.
  change (Z.of_nat 2 =? 3) with false. change (Z.of_nat 3 =? 3) with true.
  cbn [andb].
  rewrite (proj2 (String.eqb_neq _ _) (Itoa_not_empty f)).
  rewrite (proj2 (String.eqb_neq _ _) (Itoa_not_empty t)).
  rewrite (proj2 (String.eqb_neq _ _) (Itoa_not_empty s)).
  cbn [negb]. rewrite (Atoi_Itoa f Hf), (Atoi_Itoa t Ht), (Atoi_Itoa s Hs).
  now split.
Qed.

(** X12: a slice command written from integers that fit an [int] reads
    back as these integers: [f:t] has the bounds [(f, t, 1)] and [f:t:s] the
    bounds [(f, t, s)]; and for [0 <= f] the command [f:t] selects from a
    well-indexed array its segment from position [f] up to position [t],
    exclusive. *)
Theorem X12_slice_from_integers (fuel : nat) (root : Node) (i : nat) (f t s : Z)
    (elems : list Node) :
  Int.in_range f = true -> Int.in_range t = true -> Int.in_range s = true ->
  sliceBounds (strings.Split (strconv.Itoa f ++ ":" ++ strconv.Itoa t) ":")
    = inr (f, t, 1)
  /\ sliceBounds (strings.Split (strconv.Itoa f ++ ":" ++ strconv.Itoa t
                                  ++ ":" ++ strconv.Itoa s) ":")
     = inr (f, t, s)
  /\ (0 <= f -> (List.length elems < fuel)%nat ->
      command fuel root i (strconv.Itoa f ++ ":" ++ strconv.Itoa t)%string [mkArray elems]
      = Some (inr (firstn (Z.to_nat (t - f)) (skipn (Z.to_nat f) elems)))).
Proof.
  intros Hf Ht Hs.
  assert (N : forall z, strings.Contains (strconv.Itoa z) ":" = false)
    by (intros z; now apply Itoa_no_separator).
  destruct (sliceBounds_fields f t s Hf Ht Hs) as [B2 B3].
  assert (S2 : strings.Split (strconv.Itoa f ++ ":" ++ strconv.Itoa t) ":"
               = [strconv.Itoa f; strconv.Itoa t]).
  { change (":" ++ strconv.Itoa t)%string with (String ":" (strconv.Itoa t)).
    rewrite Split_append by apply N. now rewrite Split_no_separator by apply N. }
  split; [now rewrite S2|]. split.
  - change (":" ++ strconv.Itoa t ++ ":" ++ strconv.Itoa s)%string
      with (String ":" (strconv.Itoa t ++ String ":" (strconv.Itoa s))).
    rewrite Split_append by apply N. rewrite Split_append by apply N.
    now rewrite Split_no_separator by apply N.
  - intros H0 Hl.
    rewrite command_slice
      by (change (":" ++ strconv.Itoa t)%string with (String ":" (strconv.Itoa t));
          apply Contains_append).
    rewrite S2, B2. cbv iota beta.
    assert (Rt : t <= Int.MaxInt64).
    { unfold Int.in_range in Ht. apply andb_prop in Ht. destruct Ht as [_ Ht].
      now apply Z.leb_le in Ht. }
    rewrite sliceRange_sliceSpec.
    + simpl. rewrite List.app_nil_r, inheritors_mkArray.
      now rewrite (sliceSpec_segment elems t _ f H0 eq_refl).
    + exact H0.
    + unfold Int.MaxInt64. lia.
    + exact Rt.
    + constructor; [|constructor]. intros _.
      split; [apply mkArray_wellIndexed|]. now rewrite inheritors_mkArray.
Qed.

Lemma X12_slice_from_integers_witness :
  Int.in_range 1 = true /\ Int.in_range 3 = true
  /\ command 6 doc_array 2 "1:3" [mkArray [num 10; num 20; num 30; num 40; num 50]]
     = Some (inr [num 20; num 30]).
Proof.
  split; [reflexivity|]. split; [reflexivity|].
  destruct (X12_slice_from_integers 6 doc_array 2 1 3 1
              [num 10; num 20; num 30; num 40; num 50] eq_refl eq_refl eq_refl)
    as (_ & _ & H).
  apply H; simpl; lia.
Defined.

(** ** Composition, termination and the step 0 *)

(** X13: the fold is compositional: running the commands [before ++ rest]
    is running [before] and then, if that returned a result without error,
    running [rest] on that result, counted on from where [before] stopped;
    an error or a loop that does not end in [before] is the outcome of the
    whole. *)
Theorem X13_commands_compose (fuel : nat) (root : Node) (before rest : list string)
    (i : nat) (result : list Node) :
  commandsLoop fuel root i (before ++ rest) result
  = match commandsLoop fuel root i before result with
    | Some (result', None) =>
        commandsLoop fuel root (i + List.length before) rest result'
    | other => other
    end.
Proof. apply commandsLoop_app. Qed.

(** X14: the query returns whenever none of its slice commands has step 0,
    on every document whose arrays are well indexed and have fewer elements
    than the turns granted to a slice loop. *)
Theorem X14_query_returns (Unmarshal : string -> Node + Error) (fuel : nat)
    (data path : string) :
  (forall root, Unmarshal data = inl root -> fits fuel root) ->
  (forall commands, ParseJSONPath path = Some (commands, None) ->
     forallb movingSlice commands = true) ->
  exists nodes err, returned (JSONPath Unmarshal fuel data path) = Some (nodes, err).
Proof.
  intros Hf Hm. destruct (JSONPath_returns Unmarshal fuel data path Hf Hm) as [[n e] H].
  eauto.
Qed.

Lemma X14_query_returns_witness :
  fits 6 doc_array
  /\ ParseJSONPath "$.a[4::-2]" = Some (["$"; "a"; "4::-2"], None)
  /\ forallb movingSlice ["$"; "a"; "4::-2"] = true
  /\ exists nodes err,
       returned (JSONPath (parsesTo doc_array) 6 "{}" "$.a[4::-2]") = Some (nodes, err).
Proof.
  split; [simpl; repeat split; lia|]. split; [reflexivity|]. split; [reflexivity|].
  apply (X14_query_returns (parsesTo doc_array) 6 "{}" "$.a[4::-2]").
  - intros root [= <-]. simpl. repeat split; lia.
  - intros commands [= <-]. reflexivity.
Defined.

Lemma sliceBounds_from_range (keys : list string) (from to step : Z) :
  sliceBounds keys = inr (from, to, step) -> Int.MinInt64 <= from <= Int.MaxInt64.
Proof.
  unfold sliceBounds.
  destruct (3 <? Z.of_nat (List.length keys)); [discriminate|].
  destruct (String.eqb (nth 0 keys EmptyString) EmptyString).
  - destruct (if String.eqb (nth 1 keys EmptyString) EmptyString then _ else _);
      [|discriminate].
    destruct (if _ && _ then _ else _); [|discriminate].
    intros [= <- _ _]. unfold Int.MinInt64, Int.MaxInt64. lia.
  - destruct (strconv.Atoi (nth 0 keys EmptyString)) as [f|] eqn:F; [|discriminate].
    apply Atoi_in_range in F.
    destruct (if String.eqb (nth 1 keys EmptyString) EmptyString then _ else _);
      [|discriminate].
    destruct (if _ && _ then _ else _); [|discriminate].
    now intros [= <- _ _].
Qed.

Lemma sliceRange_stuck (fuel : nat) (from to step : Z) (element : Node)
    (result : list Node) :
  In element result -> IsArray element = true ->
  (forall acc, sliceLoop fuel element from to step acc = None) ->
  forall acc, sliceRange fuel result from to step acc = None.
Proof.
  intros Hin Ha Hloop. induction result as [|e result IH]; intros acc; [destruct Hin|].
  simpl. destruct Hin as [->|Hin].
  - now rewrite Ha, Hloop.
  - destruct (IsArray e); [|now apply IH].
    destruct (sliceLoop fuel e from to step acc); [now apply IH|reflexivity].
Qed.

(** X15: a slice command with step 0 never returns as soon as one array
    of the working result has an element at [from] and [from] is below
    [to]: no number of turns ends its loop. *)
Theorem X15_zero_step_never_returns (fuel : nat) (root : Node) (i : nat) (cmd : string)
    (result : list Node) (from to : Z) (element value : Node) :
  strings.Contains cmd ":" = true ->
  sliceBounds (strings.Split cmd ":") = inr (from, to, 0) ->
  from < to ->
  In element result -> IsArray element = true ->
  child element (strconv.Itoa from) = Some value ->
  command fuel root i cmd result = None.
Proof.
  intros Hc Hb Hlt Hin Ha Hv. rewrite command_slice by assumption. rewrite Hb.
  rewrite (sliceRange_stuck fuel from to 0 element result Hin Ha); [reflexivity|].
  intros acc. apply (sliceLoop_zero_step element from to value); try assumption.
  now apply (sliceBounds_from_range _ _ _ _ Hb).
Qed.

Lemma X15_zero_step_never_returns_witness :
  strings.Contains "1:3:0" ":" = true
  /\ sliceBounds (strings.Split "1:3:0" ":") = inr (1, 3, 0)
  /\ child (mkArray [num 10; num 20]) (strconv.Itoa 1) = Some (num 20)
  /\ command 1000 doc_array 2 "1:3:0" [num 0; mkArray [num 10; num 20]] = None.
Proof.
  split; [reflexivity|]. split; [reflexivity|]. split; [reflexivity|].
  apply (X15_zero_step_never_returns 1000 doc_array 2 "1:3:0"
           [num 0; mkArray [num 10; num 20]] 1 3 (mkArray [num 10; num 20]) (num 20)
           eq_refl eq_refl);
    [lia|right; now left|reflexivity|reflexivity].
Defined.

(** * The tokenizer on well-formed paths *)

(** ** Texts and positions *)

Lemma drop_length (k : nat) (d : string) :
  String.length (drop k d) = (String.length d - k)%nat.
Proof.
  revert d. induction k as [|k IH]; intros [|a d]; simpl; try reflexivity.
  apply IH.
Qed.

Lemma drop_get (k : nat) (d : string) (c : ascii) (s : string) :
  drop k d = String c s -> String.get k d = Some c.
Proof.
  revert d. induction k as [|k IH]; intros [|a d]; simpl; try discriminate.
  - now intros [= -> _].
  - apply IH.
Qed.

Lemma drop_S (k : nat) (d : string) (c : ascii) (s : string) :
  drop k d = String c s -> drop (S k) d = s.
Proof.
  revert d. induction k as [|k IH]; intros [|a d]; simpl; try discriminate.
  - now intros [= _ ->].
  - apply IH.
Qed.

Lemma drop_end (k : nat) (d : string) :
  drop k d = EmptyString -> drop (S k) d = EmptyString.
Proof.
  revert d. induction k as [|k IH]; intros [|a d]; simpl; try discriminate;
    try reflexivity.
  apply IH.
Qed.

Lemma drop_append (k : nat) (d body post : string) :
  drop k d = (body ++ post)%string -> drop (k + String.length body) d = post.
Proof.
  revert k. induction body as [|a body IH]; intros k; simpl.
  - now rewrite Nat.add_0_r.
  - intros H. rewrite Nat.add_succ_r. apply (IH (S k)). now apply (drop_S k d a).
Qed.

Lemma substring_drop (k : nat) (d body post : string) :
  drop k d = (body ++ post)%string -> String.substring k (String.length body) d = body.
Proof.
  revert d. induction k as [|k IH]; intros d; simpl.
  - intros ->. clear. induction body as [|a body IH]; simpl.
    + now destruct post.
    + now rewrite IH.
  - destruct d as [|a d].
    + destruct body; [reflexivity|discriminate].
    + apply IH.
Qed.

Lemma length_append (a b : string) :
  String.length (a ++ b) = (String.length a + String.length b)%nat.
Proof. induction a as [|c a IH]; simpl; [reflexivity|now rewrite IH]. Qed.

Lemma append_assoc (a b c : string) : ((a ++ b) ++ c = a ++ (b ++ c))%string.
Proof. induction a as [|x a IH]; simpl; [reflexivity|now rewrite IH]. Qed.

Lemma append_nil_r (a : string) : (a ++ EmptyString)%string = a.
Proof. induction a as [|x a IH]; simpl; [reflexivity|now rewrite IH]. Qed.

(** ** The cursor at a position *)

Lemma cursorAt_set (d : string) (k j : nat) (z : Z) :
  z = Z.of_nat j -> set_index (cursorAt d k) z = cursorAt d j.
Proof. intros ->. reflexivity. Qed.

Lemma current_at (d : string) (k : nat) (c : ascii) (s : string) :
  drop k d = String c s -> current (cursorAt d k) = (c, None).
Proof.
  intros H. unfold current, byte_at. cbn [cursorAt index length data].
  pose proof (drop_length k d) as L. rewrite H in L. simpl in L.
  replace (Z.of_nat k <? Z.of_nat (String.length d)) with true
    by (symmetry; apply Z.ltb_lt; lia).
  now rewrite Nat2Z.id, (drop_get k d c s H).
Qed.

Lemma step_at_more (d : string) (k : nat) (c : ascii) (s : string) :
  drop (S k) d = String c s -> step (cursorAt d k) = (cursorAt d (S k), None).
Proof.
  intros H. unfold step. cbn [cursorAt index length].
  pose proof (drop_length (S k) d) as L. rewrite H in L. simpl in L.
  replace (Z.of_nat k + 1 <? Z.of_nat (String.length d)) with true
    by (symmetry; apply Z.ltb_lt; lia).
  f_equal. apply cursorAt_set. lia.
Qed.

Lemma step_at_end (d : string) (k : nat) :
  drop (S k) d = EmptyString -> step (cursorAt d k) = (cursorAt d k, Some io_EOF).
Proof.
  intros H. unfold step. cbn [cursorAt index length].
  pose proof (drop_length (S k) d) as L. rewrite H in L. simpl in L.
  replace (Z.of_nat k + 1 <? Z.of_nat (String.length d)) with false
    by (symmetry; apply Z.ltb_ge; lia).
  reflexivity.
Qed.

Lemma next_at_more (d : string) (k : nat) (c : ascii) (s : string) :
  drop (S k) d = String c s -> next (cursorAt d k) = (cursorAt d (S k), c, None).
Proof.
  intros H. unfold next. rewrite (step_at_more d k c s H).
  unfold byte_at. cbn [cursorAt index data].
  now rewrite Nat2Z.id, (drop_get (S k) d c s H).
Qed.

Lemma next_at_end (d : string) (k : nat) :
  drop (S k) d = EmptyString ->
  next (cursorAt d k) = (cursorAt d k, zero_byte, Some io_EOF).
Proof. intros H. unfold next. now rewrite (step_at_end d k H). Qed.

Lemma advance_at_more (d : string) (k : nat) (c : ascii) (s : string)
    (result : list string) :
  drop (S k) d = String c s ->
  advance (cursorAt d k) result = Again (cursorAt d (S k)) result.
Proof. intros H. unfold advance. now rewrite (step_at_more d k c s H). Qed.

Lemma advance_at_end (d : string) (k : nat) (result : list string) :
  drop (S k) d = EmptyString -> advance (cursorAt d k) result = Done result None.
Proof. intros H. unfold advance. now rewrite (step_at_end d k H). Qed.

(** The scan runs over the bytes that do not stop it, up to the first one
    that does or to the end of the text. *)
Lemma scan_at (stop : ascii -> bool) (d body post : string) :
  allBytes (fun c => negb (stop c)) body = true ->
  (post = EmptyString \/ startsWith_any stop post = true) ->
  forall (k n : nat),
  drop k d = (body ++ post)%string ->
  (String.length body + String.length post <= n)%nat ->
  scan n stop (cursorAt d k)
  = (cursorAt d (k + String.length body),
     if String.eqb post EmptyString then Some io_EOF else None).
Proof.
  intros Hb Hp. induction body as [|a body IH]; intros k n Hd Hn.
  - simpl in Hd. rewrite Nat.add_0_r.
    destruct Hp as [->|Hp].
    + pose proof (drop_length k d) as L. rewrite Hd in L. simpl in L.
      destruct n as [|n]; [reflexivity|]. simpl.
      replace (Z.of_nat k <? Z.of_nat (String.length d)) with false
        by (symmetry; apply Z.ltb_ge; lia).
      reflexivity.
    + destruct post as [|c post]; [discriminate|]. simpl in Hp, Hn.
      destruct n as [|n]; [lia|]. simpl.
      pose proof (drop_length k d) as L. rewrite Hd in L. simpl in L.
      replace (Z.of_nat k <? Z.of_nat (String.length d)) with true
        by (symmetry; apply Z.ltb_lt; lia).
      unfold byte_at. cbn [cursorAt index data].
      now rewrite Nat2Z.id, (drop_get k d c post Hd), Hp.
  - simpl in Hb, Hd, Hn. apply andb_prop in Hb. destruct Hb as [Ha Hb].
    apply negb_true_iff in Ha.
    destruct n as [|n]; [lia|]. simpl.
    pose proof (drop_length k d) as L. rewrite Hd in L. simpl in L.
    replace (Z.of_nat k <? Z.of_nat (String.length d)) with true
      by (symmetry; apply Z.ltb_lt; lia).
    unfold byte_at at 1. cbn [cursorAt index data].
    rewrite Nat2Z.id, (drop_get k d a _ Hd), Ha.
    rewrite (cursorAt_set d k (S k)) by lia.
    rewrite (IH Hb (S k) n (drop_S k d a _ Hd)) by lia.
    now rewrite Nat.add_succ_r.
Qed.

Lemma skipAny_at (stop : ascii -> bool) (d body post : string) (k : nat) :
  allBytes (fun c => negb (stop c)) body = true ->
  (post = EmptyString \/ startsWith_any stop post = true) ->
  drop k d = (body ++ post)%string ->
  skipAny (cursorAt d k) stop
  = (cursorAt d (k + String.length body),
     if String.eqb post EmptyString then Some io_EOF else None).
Proof.
  intros Hb Hp Hd. unfold skipAny. apply (scan_at stop d body post Hb Hp k _ Hd).
  cbn [cursorAt index length].
  pose proof (drop_length k d) as L. rewrite Hd, length_append in L. lia.
Qed.

Lemma advance_at (d : string) (k : nat) (follow : string) (result : list string) :
  drop (S k) d = follow ->
  advance (cursorAt d k) result
  = if String.eqb follow EmptyString then Done result None
    else Again (cursorAt d (S k)) result.
Proof.
  intros H. destruct follow as [|c s].
  - now apply advance_at_end.
  - now apply (advance_at_more d k c s).
Qed.

(** ** One turn on one segment *)

Lemma turn_Root (d : string) (k : nat) (follow : string) (result : list string) :
  drop k d = (render Root ++ follow)%string ->
  parseTurn (cursorAt d k) result
  = if String.eqb follow EmptyString then Done (result ++ ["$"]) None
    else Again (cursorAt d (k + 1)) (result ++ ["$"]).
Proof.
  intros Hd. simpl in Hd. unfold parseTurn.
  rewrite (current_at d k _ _ Hd). cbv iota beta.
  change (Ascii.eqb dollar dollar) with true. cbv iota.
  rewrite Nat.add_1_r. apply advance_at. now apply (drop_S k d dollar).
Qed.

Lemma slice_of_at (d : string) (j k : nat) (body post : string) (a b : Z) :
  drop k d = (body ++ post)%string ->
  a = Z.of_nat k -> b = Z.of_nat (k + String.length body) ->
  slice_of (cursorAt d j) a b = body.
Proof.
  intros Hd -> ->. unfold slice_of. cbn [cursorAt data].
  rewrite Nat2Z.id.
  replace (Z.to_nat (Z.of_nat (k + String.length body) - Z.of_nat k))
    with (String.length body) by lia.
  now apply (substring_drop k d body post).
Qed.

Lemma childEnd_not_dot (a : ascii) : childEnd a = false -> Ascii.eqb a dot = false.
Proof. unfold childEnd. intros H. now apply orb_false_elim in H. Qed.

Lemma turn_Child (d : string) (k : nat) (name follow : string) (result : list string) :
  drop k d = (render (Child name) ++ follow)%string ->
  readable (Child name) follow = true ->
  parseTurn (cursorAt d k) result
  = if String.eqb follow EmptyString
    then Done (result ++ emit (Child name) follow) None
    else Again (cursorAt d (k + String.length (render (Child name))))
           (result ++ emit (Child name) follow).
Proof.
  intros Hd Hr. simpl in Hd. pose proof (drop_S k d _ _ Hd) as Hd1.
  cbn [readable] in Hr. apply andb_prop in Hr. destruct Hr as [Hn Hf].
  unfold parseTurn. rewrite (current_at d k _ _ Hd). cbv iota beta.
  change (Ascii.eqb dot dollar) with false. change (Ascii.eqb dot dot) with true.
  cbv iota zeta. cbn [render String.length emit].
  destruct name as [|a name].
  - cbn [append] in Hd1. cbn [String.eqb]. destruct follow as [|c f].
    + rewrite (next_at_end d k Hd1). cbv iota beta.
      rewrite (advance_at_end d k result Hd1). cbn [String.eqb startsWith].
      now rewrite List.app_nil_r.
    + rewrite (next_at_more d k c f Hd1). cbv iota beta. cbn [String.eqb startsWith].
      destruct (Ascii.eqb c dot) eqn:Ed.
      * rewrite (cursorAt_set d (S k) k) by (cbn [cursorAt index]; lia).
        rewrite (advance_at_more d k c f _ Hd1). now rewrite Nat.add_1_r.
      * simpl in Hf. rewrite Ed in Hf. simpl in Hf.
        rewrite (skipAny_at childEnd d EmptyString (String c f) (S k) eq_refl);
          [|right; simpl; unfold childEnd; now rewrite Hf, orb_true_r|exact Hd1].
        cbn [String.eqb String.length]. cbv iota beta.
        rewrite Nat.add_0_r.
        rewrite (cursorAt_set d (S k) k) by (cbn [cursorAt index]; lia).
        cbn [cursorAt index].
        replace (Z.of_nat k + 1 <? Z.of_nat (S k)) with false
          by (symmetry; apply Z.ltb_ge; lia).
        rewrite (advance_at_more d k c f _ Hd1).
        now rewrite Nat.add_1_r, List.app_nil_r.
  - simpl in Hn. apply andb_prop in Hn. destruct Hn as [Ha Hn].
    apply negb_true_iff in Ha.
    rewrite (next_at_more d k a _ Hd1). cbv iota beta.
    rewrite (childEnd_not_dot a Ha).
    assert (Hb : allBytes (fun c => negb (childEnd c)) (String a name) = true)
      by (simpl; now rewrite Ha, Hn).
    assert (Hp : follow = EmptyString \/ startsWith_any childEnd follow = true).
    { destruct follow as [|c f]; [now left|right]. simpl in Hf |- *.
      unfold childEnd. exact Hf. }
    rewrite (skipAny_at childEnd d (String a name) follow (S k) Hb Hp Hd1).
    pose proof (drop_append (S k) d _ _ Hd1) as Hd2.
    cbn [String.eqb]. destruct follow as [|c f].
    + cbn [String.eqb]. cbv iota beta. cbn [cursorAt length index].
      pose proof (drop_length (S k) d) as L. rewrite Hd1, length_append in L.
      simpl in L.
      replace (Z.of_nat k + 1 <? Z.of_nat (String.length d)) with true
        by (symmetry; apply Z.ltb_lt; lia).
      rewrite (slice_of_at d _ (S k) (String a name) EmptyString) by (assumption || lia || (simpl; lia)).
      apply advance_at_end. now apply drop_end.
    + cbn [String.eqb]. cbv iota beta.
      rewrite (cursorAt_set d _ (k + String.length (String a name)))
        by (cbn [cursorAt index String.length]; lia).
      cbn [cursorAt index].
      replace (Z.of_nat k + 1 <? Z.of_nat (S k + String.length (String a name)))
        with true by (symmetry; apply Z.ltb_lt; simpl; lia).
      rewrite (slice_of_at d _ (S k) (String a name) (String c f))
        by (assumption || lia).
      rewrite (advance_at_more d _ c f _); [|now rewrite <- Hd2].
      now rewrite Nat.add_succ_r.
Qed.

Lemma Contains_allBytes (s : string) (c : ascii) :
  strings.Contains s c = false ->
  allBytes (fun x => negb (Ascii.eqb c x)) s = true.
Proof.
  induction s as [|a s IH]; simpl; [reflexivity|].
  intros H. apply orb_false_elim in H. destruct H as [Ha Hs].
  now rewrite Ascii.eqb_sym, Ha, (IH Hs).
Qed.

Lemma step_at_inside (d : string) (k : nat) :
  drop (S k) d <> EmptyString -> step (cursorAt d k) = (cursorAt d (S k), None).
Proof.
  intros H. destruct (drop (S k) d) as [|c s] eqn:E; [now elim H|].
  now apply (step_at_more d k c s).
Qed.

Lemma append_not_empty (a b : string) (c : ascii) :
  (a ++ String c b)%string <> EmptyString.
Proof. destruct a; discriminate. Qed.

Lemma turn_Bracket (d : string) (k : nat) (raw follow : string) (result : list string) :
  drop k d = (render (Bracket raw) ++ follow)%string ->
  readable (Bracket raw) follow = true ->
  parseTurn (cursorAt d k) result
  = if String.eqb follow EmptyString
    then Done (result ++ [raw]) None
    else Again (cursorAt d (k + String.length (render (Bracket raw)))) (result ++ [raw]).
Proof.
  intros Hd Hr. cbn [render append] in Hd. rewrite append_assoc in Hd.
  cbn [append] in Hd. pose proof (drop_S k d _ _ Hd) as Hd1.
  cbn [readable] in Hr. apply andb_prop in Hr. destruct Hr as [Hc Hq].
  apply negb_true_iff in Hc, Hq.
  unfold parseTurn. rewrite (current_at d k _ _ Hd). cbv iota beta.
  change (Ascii.eqb bracketL dollar) with false.
  change (Ascii.eqb bracketL dot) with false.
  change (Ascii.eqb bracketL bracketL) with true. cbv iota.
  assert (Hn : exists b s, drop (S k) d = String b s /\ Ascii.eqb b quote = false).
  { rewrite Hd1. destruct raw as [|a raw]; simpl; [now eauto|].
    simpl in Hq. now eauto. }
  destruct Hn as (b & s & Hbs & Hb).
  rewrite (next_at_more d k b s Hbs). cbv iota beta zeta. rewrite Hb. cbv iota.
  unfold skip.
  rewrite (skipAny_at (Ascii.eqb bracketR) d raw (String bracketR follow) (S k));
    [|now apply Contains_allBytes|right; reflexivity|exact Hd1].
  cbn [String.eqb]. cbv iota beta.
  rewrite (slice_of_at d _ (S k) raw (String bracketR follow))
    by (assumption || reflexivity).
  pose proof (drop_append (S k) d _ _ Hd1) as Hd2.
  rewrite (advance_at d _ follow) by now apply (drop_S _ d bracketR).
  cbn [render String.length]. rewrite length_append. cbn [String.length].
  replace (k + S (String.length raw + 1))%nat with (S (S k + String.length raw)) by lia.
  reflexivity.
Qed.

Lemma turn_Quoted (d : string) (k : nat) (key follow : string) (result : list string) :
  drop k d = (render (Quoted key) ++ follow)%string ->
  readable (Quoted key) follow = true ->
  parseTurn (cursorAt d k) result
  = if String.eqb follow EmptyString
    then Done (result ++ [key]) None
    else Again (cursorAt d (k + String.length (render (Quoted key)))) (result ++ [key]).
Proof.
  intros Hd Hr. cbn [render append] in Hd. rewrite append_assoc in Hd.
  cbn [append] in Hd. pose proof (drop_S k d _ _ Hd) as Hd1.
  pose proof (drop_S (S k) d _ _ Hd1) as Hd2.
  cbn [readable] in Hr. apply negb_true_iff in Hr.
  unfold parseTurn. rewrite (current_at d k _ _ Hd). cbv iota beta.
  change (Ascii.eqb bracketL dollar) with false.
  change (Ascii.eqb bracketL dot) with false.
  change (Ascii.eqb bracketL bracketL) with true. cbv iota.
  rewrite (next_at_more d k _ _ Hd1). cbv iota beta zeta.
  change (Ascii.eqb quote quote) with true. cbv iota.
  unfold buf_string, skip.
  rewrite (step_at_inside d (S k)) by (rewrite Hd2; apply append_not_empty).
  rewrite (skipAny_at (Ascii.eqb quote) d key
             (String quote (String bracketR follow)) (S (S k)));
    [|now apply Contains_allBytes|right; reflexivity|exact Hd2].
  cbn [String.eqb]. cbv iota beta.
  pose proof (drop_append (S (S k)) d _ _ Hd2) as Hd3.
  pose proof (drop_S _ d _ _ Hd3) as Hd4.
  rewrite (next_at_more d _ bracketR follow Hd4). cbv iota beta.
  change (negb (Ascii.eqb bracketR bracketR)) with false. cbv iota.
  rewrite (slice_of_at d _ (S (S k)) key (String quote (String bracketR follow)))
    by (assumption || reflexivity || (cbn [cursorAt index]; lia)).
  rewrite (advance_at d _ follow) by now apply (drop_S _ d bracketR).
  cbn [render String.length]. rewrite length_append. cbn [String.length].
  replace (k + S (S (String.length key + 2)))%nat
    with (S (S (S (S k) + String.length key))) by lia.
  reflexivity.
Qed.

Lemma turn_segment (seg : segment) (d : string) (k : nat) (follow : string)
    (result : list string) :
  drop k d = (render seg ++ follow)%string ->
  readable seg follow = true ->
  parseTurn (cursorAt d k) result
  = if String.eqb follow EmptyString
    then Done (result ++ emit seg follow) None
    else Again (cursorAt d (k + String.length (render seg))) (result ++ emit seg follow).
Proof.
  destruct seg as [|name|raw|key]; intros Hd Hr.
  - now apply turn_Root.
  - now apply turn_Child.
  - now apply turn_Bracket.
  - now apply turn_Quoted.
Qed.

(** ** The loop on a run of segments *)

Lemma render_not_empty (seg : segment) : render seg <> EmptyString.
Proof. destruct seg; discriminate. Qed.

Lemma renderAll_length (segs : list segment) :
  (List.length segs <= String.length (renderAll segs))%nat.
Proof.
  induction segs as [|seg segs IH]; simpl; [lia|].
  rewrite length_append. destruct seg; simpl in *; lia.
Qed.

Lemma eqb_empty_append (a b : string) :
  b <> EmptyString -> String.eqb (a ++ b) EmptyString = false.
Proof.
  intros Hb. apply String.eqb_neq. destruct a; simpl; [exact Hb|discriminate].
Qed.

(** The turns on the segments [segs] that some text follows: the cursor
    ends behind them and their commands are added. *)
Lemma parseLoop_segments (d : string) (follow : string) (segs : list segment) :
  follow <> EmptyString ->
  forall (k fuel : nat) (result : list string),
  drop k d = (renderAll segs ++ follow)%string ->
  readableAll segs follow = true ->
  parseLoop (List.length segs + fuel) (cursorAt d k) result
  = parseLoop fuel (cursorAt d (k + String.length (renderAll segs)))
      (result ++ emitAll segs follow).
Proof.
  intros Hf. induction segs as [|seg segs IH]; intros k fuel result Hd Hr.
  - simpl. now rewrite Nat.add_0_r, List.app_nil_r.
  - cbn [renderAll] in Hd. rewrite append_assoc in Hd.
    cbn [readableAll] in Hr. apply andb_prop in Hr. destruct Hr as [Hs Hr].
    cbn [List.length Nat.add parseLoop].
    rewrite (turn_segment seg d k _ result Hd Hs).
    rewrite eqb_empty_append by exact Hf.
    rewrite (IH _ fuel _ (drop_append k d _ _ Hd) Hr).
    cbn [renderAll emitAll]. rewrite length_append, Nat.add_assoc.
    now rewrite <- List.app_assoc.
Qed.

(** The turns on the segments that end the path: the loop returns their
    commands without error. *)
Lemma parseLoop_segments_end (d : string) (segs : list segment) :
  segs <> [] ->
  forall (k fuel : nat) (result : list string),
  drop k d = renderAll segs ->
  readableAll segs EmptyString = true ->
  parseLoop (List.length segs + fuel) (cursorAt d k) result
  = Some (result ++ emitAll segs EmptyString, None).
Proof.
  induction segs as [|seg segs IH]; intros Hne k fuel result Hd Hr; [now elim Hne|].
  cbn [renderAll] in Hd. cbn [readableAll] in Hr.
  apply andb_prop in Hr. destruct Hr as [Hs Hr].
  cbn [List.length Nat.add parseLoop].
  assert (Hd' : drop k d = (render seg ++ (renderAll segs ++ EmptyString))%string)
    by now rewrite append_nil_r.
  rewrite (turn_segment seg d k _ result Hd' Hs).
  destruct segs as [|seg' segs].
  - cbn [renderAll append String.eqb emitAll]. now rewrite List.app_nil_r.
  - rewrite append_nil_r.
    replace (String.eqb (renderAll (seg' :: segs)) EmptyString) with false.
    2:{ symmetry. apply String.eqb_neq. cbn [renderAll].
        pose proof (render_not_empty seg'). destruct (render seg'); [congruence|discriminate]. }
    rewrite (IH ltac:(discriminate) _ fuel _ (drop_append k d _ _ Hd) Hr).
    rewrite <- List.app_assoc. cbn [emitAll].
    now rewrite (append_nil_r (renderAll (seg' :: segs))).
Qed.

Lemma ParseJSONPath_segments (segs : list segment) :
  segs <> [] ->
  readableAll segs EmptyString = true ->
  ParseJSONPath (renderAll segs) = Some (emitAll segs EmptyString, None).
Proof.
  intros Hne Hr. unfold ParseJSONPath.
  change (newBuffer (renderAll segs)) with (cursorAt (renderAll segs) 0).
  pose proof (renderAll_length segs) as L.
  replace (S (String.length (renderAll segs)))
    with (List.length segs + (S (String.length (renderAll segs)) - List.length segs))%nat
    by lia.
  now rewrite (parseLoop_segments_end (renderAll segs) segs Hne 0 _ [] eq_refl Hr).
Qed.

(** X16: a path made of well-formed segments tokenizes to the commands of
    its segments, in order and without error: [$] to the root command,
    [.name] to [name], [[raw]] to [raw], [['key']] to [key], a dot that
    stands before another dot to the recursive descent, and a dot before a
    bracket or at the end of the path to nothing. *)
Theorem X16_tokenizer_reads_segments (segs : list segment) :
  segs <> [] ->
  readableAll segs EmptyString = true ->
  ParseJSONPath (renderAll segs) = Some (emitAll segs EmptyString, None).
Proof. apply ParseJSONPath_segments. Qed.

Lemma X16_tokenizer_reads_segments_witness :
  renderAll [Root; Child EmptyString; Child "book"; Bracket "0:2"; Quoted "a.b"; Child "c"]
    = "$..book[0:2]['a.b'].c"
  /\ ParseJSONPath "$..book[0:2]['a.b'].c"
     = Some (["$"; ".."; "book"; "0:2"; "a.b"; "c"], None).
Proof.
  split; [reflexivity|].
  apply (X16_tokenizer_reads_segments
           [Root; Child EmptyString; Child "book"; Bracket "0:2"; Quoted "a.b"; Child "c"]);
    [discriminate|reflexivity].
Defined.

(** ** Paths that break off or go wrong after well-formed segments *)

Lemma turn_unterminated (d : string) (k : nat) (raw : string) (result : list string) :
  drop k d = String bracketL raw ->
  (strings.Contains raw bracketR = false /\ startsWith quote raw = false)
  \/ (exists key, raw = String quote key /\ strings.Contains key quote = false) ->
  parseTurn (cursorAt d k) result = Done [] (Some errorEOF).
Proof.
  intros Hd Hraw. pose proof (drop_S k d _ _ Hd) as Hd1.
  unfold parseTurn. rewrite (current_at d k _ _ Hd). cbv iota beta.
  change (Ascii.eqb bracketL dollar) with false.
  change (Ascii.eqb bracketL dot) with false.
  change (Ascii.eqb bracketL bracketL) with true. cbv iota.
  destruct Hraw as [[Hc Hq]|(key & -> & Hc)].
  - destruct raw as [|a raw].
    + now rewrite (next_at_end d k Hd1).
    + rewrite (next_at_more d k a raw Hd1). cbv iota beta zeta.
      simpl in Hq. rewrite Hq. cbv iota. unfold skip.
      rewrite (skipAny_at (Ascii.eqb bracketR) d (String a raw) EmptyString (S k));
        [reflexivity|now apply Contains_allBytes|now left|now rewrite append_nil_r].
  - rewrite (next_at_more d k quote key Hd1). cbv iota beta zeta.
    change (Ascii.eqb quote quote) with true. cbv iota.
    pose proof (drop_S (S k) d _ _ Hd1) as Hd2.
    unfold buf_string, skip. destruct key as [|a key].
    + now rewrite (step_at_end d (S k) Hd2).
    + rewrite (step_at_more d (S k) a key Hd2).
      rewrite (skipAny_at (Ascii.eqb quote) d (String a key) EmptyString (S (S k)));
        [reflexivity|now apply Contains_allBytes|now left|now rewrite append_nil_r].
Qed.

Lemma parseLoop_after_segments (segs : list segment) (follow : string)
    (outcome : list string * option Error) :
  follow <> EmptyString ->
  readableAll segs follow = true ->
  (forall k result,
     drop k (renderAll segs ++ follow) = follow ->
     parseTurn (cursorAt (renderAll segs ++ follow) k) result
     = Done (fst outcome) (snd outcome)) ->
  ParseJSONPath (renderAll segs ++ follow) = Some outcome.
Proof.
  intros Hf Hr Hturn. unfold ParseJSONPath.
  change (newBuffer (renderAll segs ++ follow))
    with (cursorAt (renderAll segs ++ follow) 0).
  pose proof (renderAll_length segs) as L.
  assert (Lf : (1 <= String.length follow)%nat)
    by (destruct follow; [now elim Hf|simpl; lia]).
  replace (S (String.length (renderAll segs ++ follow)))
    with (List.length segs
          + S (String.length (renderAll segs ++ follow) - List.length segs))%nat
    by (rewrite length_append; lia).
  rewrite (parseLoop_segments _ follow segs Hf 0 _ [] eq_refl Hr).
  cbn [parseLoop]. rewrite Hturn.
  - now destruct outcome.
  - now apply (drop_append 0 _ (renderAll segs) follow).
Qed.

(** X17: a path that ends inside a bracket fails with the unexpected-end
    error and no command, whatever well-formed segments stand before the
    bracket: the bracket is never closed, or its quoted key is never
    closed. *)
Theorem X17_unterminated_bracket (segs : list segment) (raw : string) :
  readableAll segs (String bracketL raw) = true ->
  (strings.Contains raw bracketR = false /\ startsWith quote raw = false)
  \/ (exists key, raw = String quote key /\ strings.Contains key quote = false) ->
  ParseJSONPath (renderAll segs ++ String bracketL raw) = Some ([], Some errorEOF).
Proof.
  intros Hr Hraw. apply parseLoop_after_segments; [discriminate|exact Hr|].
  intros k result Hd. now apply (turn_unterminated _ k raw).
Qed.

Lemma X17_unterminated_bracket_witness :
  ParseJSONPath "$.a['b" = Some ([], Some errorEOF)
  /\ ParseJSONPath "$.a[1:2" = Some ([], Some errorEOF).
Proof.
  split.
  - apply (X17_unterminated_bracket [Root; Child "a"] "'b"); [reflexivity|].
    right. exists "b". now split.
  - apply (X17_unterminated_bracket [Root; Child "a"] "1:2"); [reflexivity|].
    left. now split.
Defined.

Lemma turn_unexpected (d : string) (k : nat) (c : ascii) (rest : string)
    (result : list string) :
  drop k d = String c rest ->
  c <> dollar -> c <> dot -> c <> bracketL ->
  parseTurn (cursorAt d k) result = Done [] (Some errorSymbol).
Proof.
  intros Hd H1 H2 H3. unfold parseTurn. rewrite (current_at d k _ _ Hd).
  apply Ascii.eqb_neq in H1, H2, H3. now rewrite H1, H2, H3.
Qed.

Lemma turn_quote_not_closed (d : string) (k : nat) (key : string) (c : ascii)
    (rest : string) (result : list string) :
  drop k d = String bracketL (String quote (key ++ String quote (String c rest))) ->
  strings.Contains key quote = false -> c <> bracketR ->
  parseTurn (cursorAt d k) result = Done [] (Some errorSymbol).
Proof.
  intros Hd Hk Hc. pose proof (drop_S k d _ _ Hd) as Hd1.
  pose proof (drop_S (S k) d _ _ Hd1) as Hd2.
  unfold parseTurn. rewrite (current_at d k _ _ Hd). cbv iota beta.
  change (Ascii.eqb bracketL dollar) with false.
  change (Ascii.eqb bracketL dot) with false.
  change (Ascii.eqb bracketL bracketL) with true. cbv iota.
  rewrite (next_at_more d k _ _ Hd1). cbv iota beta zeta.
  change (Ascii.eqb quote quote) with true. cbv iota.
  unfold buf_string, skip.
  rewrite (step_at_inside d (S k)) by (rewrite Hd2; apply append_not_empty).
  rewrite (skipAny_at (Ascii.eqb quote) d key (String quote (String c rest)) (S (S k)));
    [|now apply Contains_allBytes|right; reflexivity|exact Hd2].
  cbn [String.eqb]. cbv iota beta.
  pose proof (drop_append (S (S k)) d _ _ Hd2) as Hd3.
  pose proof (drop_S _ d _ _ Hd3) as Hd4.
  rewrite (next_at_more d _ c rest Hd4). cbv iota beta.
  apply Ascii.eqb_neq in Hc. now rewrite Hc.
Qed.

(** X18: behind well-formed segments that end with the root or a bracket,
    a byte that is none of [$], [.] and [[] fails the path with the
    unexpected-symbol error and no command; so does a quoted key whose
    closing quote is not followed by the closing bracket, as in the union
    of quoted keys [['x','y']]. *)
Theorem X18_unexpected_symbol (segs : list segment) (follow : string) :
  readableAll segs follow = true ->
  (exists c rest, follow = String c rest
                  /\ c <> dollar /\ c <> dot /\ c <> bracketL)
  \/ (exists key c rest,
        follow = String bracketL (String quote (key ++ String quote (String c rest)))
        /\ strings.Contains key quote = false /\ c <> bracketR) ->
  ParseJSONPath (renderAll segs ++ follow) = Some ([], Some errorSymbol).
Proof.
  intros Hr [(c & rest & -> & H1 & H2 & H3)|(key & c & rest & -> & Hk & Hc)].
  - apply parseLoop_after_segments; [discriminate|exact Hr|].
    intros k result Hd. now apply (turn_unexpected _ k c rest).
  - apply parseLoop_after_segments; [discriminate|exact Hr|].
    intros k result Hd. now apply (turn_quote_not_closed _ k key c rest).
Qed.

Lemma X18_unexpected_symbol_witness :
  ParseJSONPath "$[0]x" = Some ([], Some errorSymbol)
  /\ ParseJSONPath "$.a['x','y']" = Some ([], Some errorSymbol).
Proof.
  split.
  - apply (X18_unexpected_symbol [Root; Bracket "0"] "x"); [reflexivity|].
    left. exists "x"%char, EmptyString. repeat split; discriminate.
  - apply (X18_unexpected_symbol [Root; Child "a"] "['x','y']"); [reflexivity|].
    right. exists "x", ","%char, "'y']". repeat split; discriminate.
Defined.

(** * Dotted paths, from the text to the nodes *)

Lemma plainName_parts (name : string) :
  plainName name = true ->
  name <> EmptyString
  /\ allBytes (fun c => negb (childEnd c)) name = true
  /\ isKeyCommand name = true
  /\ strings.Contains name "," = false.
Proof.
  unfold plainName. intros H.
  repeat (apply andb_prop in H; destruct H as [H ?]).
  apply negb_true_iff in H. apply String.eqb_neq in H.
  repeat split; try assumption. now apply negb_true_iff.
Qed.

Lemma children_readable (names : list string) :
  forallb plainName names = true ->
  readableAll (map Child names) EmptyString = true
  /\ emitAll (map Child names) EmptyString = names.
Proof.
  induction names as [|name names IH]; intros H; [now split|].
  simpl in H. apply andb_prop in H. destruct H as [Hn H].
  destruct (IH H) as [IH1 IH2].
  destruct (plainName_parts name Hn) as (Hne & Hb & _ & _).
  cbn [map readableAll emitAll readable emit]. rewrite Hb, IH1, IH2.
  apply String.eqb_neq in Hne. rewrite Hne. split; [|reflexivity].
  destruct names as [|name' names]; reflexivity.
Qed.

Lemma plainName_validSlice (names : list string) :
  forallb plainName names = true -> forallb validSlice names = true.
Proof.
  induction names as [|name names IH]; intros H; [reflexivity|].
  simpl in H |- *. apply andb_prop in H. destruct H as [Hn H].
  rewrite (IH H), andb_true_r.
  destruct (plainName_parts name Hn) as (_ & _ & Hk & _).
  unfold isKeyCommand in Hk.
  repeat (apply andb_prop in Hk; destruct Hk as [Hk ?]).
  unfold validSlice.
  match goal with H : negb (strings.Contains name ":") = true |- _ =>
    apply negb_true_iff in H; now rewrite H end.
Qed.

Lemma commandsLoop_descend (fuel : nat) (root : Node) (names : list string) :
  forallb plainName names = true ->
  forall (i : nat) (n : Node),
  commandsLoop fuel root (S i) names [n] = Some (descend n names, None).
Proof.
  induction names as [|name names IH]; intros H i n; [reflexivity|].
  simpl in H. apply andb_prop in H. destruct H as [Hn H].
  destruct (plainName_parts name Hn) as (_ & _ & Hk & Hc).
  cbn [commandsLoop descend].
  rewrite (isKeyCommand_command fuel root (S i) name [n] Hk).
  rewrite (Split_no_separator name "," Hc).
  unfold byKeys. cbn [flat_map]. rewrite !List.app_nil_r.
  destruct (isContainer n).
  - destruct (child n name) as [value|].
    + apply IH. exact H.
    + rewrite commandsLoop_empty by (left; discriminate).
      now rewrite (plainName_validSlice names H).
  - rewrite commandsLoop_empty by (left; discriminate).
    now rewrite (plainName_validSlice names H).
Qed.

(** X19: a dotted path [$.k1.k2...kn] of plain key names returns the node
    reached from the root by following the keys [k1], ..., [kn] in turn, and
    returns no node, without error, as soon as one step meets a leaf or a
    container without that key. *)
Theorem X19_dotted_path (Unmarshal : string -> Node + Error) (fuel : nat)
    (data : string) (root : Node) (names : list string) :
  Unmarshal data = inl root ->
  forallb plainName names = true ->
  ParseJSONPath (renderAll (Root :: map Child names)) = Some ("$" :: names, None)
  /\ returned (JSONPath Unmarshal fuel data (renderAll (Root :: map Child names)))
     = Some (descend root names, None).
Proof.
  intros Hu Hn. destruct (children_readable names Hn) as [Hr He].
  assert (Hp : ParseJSONPath (renderAll (Root :: map Child names))
               = Some ("$" :: names, None)).
  { rewrite ParseJSONPath_segments; [|discriminate|exact Hr].
    cbn [emitAll emit]. now rewrite He. }
  split; [exact Hp|].
  rewrite (JSONPath_commands _ fuel data _ _ root Hp Hu).
  cbn [commandsLoop]. change (command fuel root 0 "$" []) with (Some (@inr Error _ [root])).
  cbv iota beta. now apply commandsLoop_descend.
Qed.

Lemma X19_dotted_path_witness :
  parsesTo doc_prices "{}" = inl doc_prices
  /\ forallb plainName ["a"; "b"; "price"] = true
  /\ renderAll (Root :: map Child ["a"; "b"; "price"]) = "$.a.b.price"
  /\ returned (JSONPath (parsesTo doc_prices) 0 "{}" "$.a.b.price")
     = Some ([num 5], None).
Proof.
  split; [reflexivity|]. split; [reflexivity|]. split; [reflexivity|].
  apply (X19_dotted_path (parsesTo doc_prices) 0 "{}" doc_prices ["a"; "b"; "price"]
           eq_refl eq_refl).
Defined.

(** * Slices, for every step but 0 *)

Lemma sliceLoop_sliceResult (fuel : nat) (element : Node) (from to step : Z)
    (acc : list Node) :
  wellIndexed element ->
  (List.length (inheritors element) < fuel)%nat ->
  step <> 0 -> Int.MinInt64 <= step <= Int.MaxInt64 -> to <= Int.MaxInt64 ->
  sliceLoop fuel element from to step acc
  = Some (acc ++ sliceResult (inheritors element) from to step).
Proof.
  intros Hw Hl Hs Rs Rt. unfold sliceResult.
  destruct fuel as [|fuel]; [lia|].
  destruct (0 <? step) eqn:Pos.
  - apply Z.ltb_lt in Pos. destruct (0 <=? from) eqn:H0.
    + apply Z.leb_le in H0.
      apply (sliceLoop_sliceSpec element to step Hw (conj Pos (proj2 Rs)) Rt
               _ (S fuel) from acc H0 eq_refl).
      pose proof (sliceCount_le_len from to step
                    (Z.of_nat (List.length (inheritors element)))). lia.
    + apply Z.leb_gt in H0. rewrite List.app_nil_r.
      apply sliceLoop_nothing; [assumption|]. now left.
  - apply Z.ltb_ge in Pos.
    replace (step <? 0) with true by (symmetry; apply Z.ltb_lt; lia).
    destruct ((0 <=? from) && (from <? to)
              && (from <? Z.of_nat (List.length (inheritors element)))) eqn:C.
    + apply andb_prop in C. destruct C as [C C3]. apply andb_prop in C.
      destruct C as [C1 C2].
      apply Z.leb_le in C1. apply Z.ltb_lt in C2, C3.
      apply sliceLoop_sliceDownSpec; (assumption || lia).
    + rewrite List.app_nil_r. apply sliceLoop_nothing; [assumption|].
      apply andb_false_iff in C. destruct C as [C|C].
      * apply andb_false_iff in C. destruct C as [C|C].
        -- apply Z.leb_gt in C. now left.
        -- apply Z.ltb_ge in C. right. now left.
      * apply Z.ltb_ge in C. right. now right.
Qed.

Lemma sliceBounds_defaults (k0 k1 : string) (tail : list string) (from to step : Z) :
  sliceBounds (k0 :: k1 :: tail) = inr (from, to, step) ->
  (k0 = EmptyString -> from = 0)
  /\ (k1 = EmptyString -> to = Int.MaxInt64)
  /\ (tail = [] \/ nth 0 tail EmptyString = EmptyString -> step = 1).
Proof.
  unfold sliceBounds. simpl nth.
  destruct (3 <? Z.of_nat (List.length (k0 :: k1 :: tail))); [discriminate|].
  intros Hb. split; [|split].
  - intros ->. simpl in Hb.
    destruct (if String.eqb k1 EmptyString then _ else _); [|discriminate].
    destruct (if _ && _ then _ else _); [|discriminate].
    now injection Hb as <- _ _.
  - intros ->. simpl in Hb.
    destruct (if String.eqb k0 EmptyString then _ else _); [|discriminate].
    destruct (if _ && _ then _ else _); [|discriminate].
    now injection Hb as _ <- _.
  - intros Hstep.
    destruct (if String.eqb k0 EmptyString then _ else _); [|discriminate].
    destruct (if String.eqb k1 EmptyString then _ else _); [|discriminate].
    assert (E : (Z.of_nat (List.length (k0 :: k1 :: tail)) =? 3)
                && negb (String.eqb (nth 0 tail EmptyString) EmptyString) = false).
    { destruct Hstep as [H2|H2]; rewrite H2.
      - reflexivity.
      - apply andb_false_r. }
    rewrite E in Hb. now injection Hb as _ _ <-.
Qed.

(** C4, as the claim states it, fails for a negative step: the loop tests
    [i < to] only, so the indices of [2:9:-1] run from 2 down to 0, away from
    [to], and give [30,20,10] on [[10,20,30,40,50]], with the elements at
    positions 1 and 0 that do not lie between [from] and [to]; and [4:1:-1],
    whose indices 4, 3, 2 run toward [to], selects nothing. *)
Lemma C4_slice_not_toward_to :
  sliceBounds (strings.Split "2:9:-1" ":") = inr (2, 9, -1)
  /\ command 6 doc_array 2 "2:9:-1" [mkArray [num 10; num 20; num 30; num 40; num 50]]
     = Some (inr [num 30; num 20; num 10])
  /\ sliceToward 6 [num 10; num 20; num 30; num 40; num 50] 2 9 (-1) = []
  /\ returned (JSONPath (parsesTo doc_array) 6 EmptyString "$.a[2:9:-1]")
     = Some ([num 30; num 20; num 10], None)
  /\ sliceBounds (strings.Split "4:1:-1" ":") = inr (4, 1, -1)
  /\ command 6 doc_array 2 "4:1:-1" [mkArray [num 10; num 20; num 30; num 40; num 50]]
     = Some (inr [])
  /\ sliceToward 6 [num 10; num 20; num 30; num 40; num 50] 4 1 (-1)
     = [num 50; num 40; num 30]
  /\ command 6 doc_array 2 "2:9:-1" [mkArray [num 10; num 20; num 30; num 40; num 50]]
     <> Some (inr (sliceToward 6 [num 10; num 20; num 30; num 40; num 50] 2 9 (-1)))
  /\ command 6 doc_array 2 "4:1:-1" [mkArray [num 10; num 20; num 30; num 40; num 50]]
     <> Some (inr (sliceToward 6 [num 10; num 20; num 30; num 40; num 50] 4 1 (-1))).
Proof. repeat split; discriminate. Qed.

(** C4, amended: a slice command whose fields validate to
    [(from, to, step)] takes 0 for an empty [from], the largest [int] for an
    empty [to], which no array reaches, and 1 for a missing or empty [step].
    For every step other than 0 it replaces the working result by what its
    loop collects from the arrays of the result, one array after the other,
    and nothing for any other node.  The loop starts at [from], steps by
    [step] while the index is below [to], the one bound it tests, and stops
    at the first missing index: with a positive step it gives the elements
    at [from], [from + step], ... below [to] (the segment from [from] up to
    [to] when the step is 1, nothing for a negative [from]); with a negative
    step it gives nothing unless [0 <= from < to] and [from] is an index of
    the array, and then the elements at [from], [from + step], ... down to
    the last index that is not negative, whatever [to] is (the reverse of
    the first [from + 1] elements when the step is -1).  On
    [{"a":[10,20,30,40,50]}], [$.a[1:3]] gives [20,30], [$.a[1:]] gives
    [20,30,40,50] and [$.a[:2]] gives [10,20]. *)
Theorem C4_slice_nonzero_step (fuel : nat) (root : Node) (i : nat) (cmd : string)
    (result : list Node) (from to step : Z) :
  strings.Contains cmd ":" = true ->
  sliceBounds (strings.Split cmd ":") = inr (from, to, step) ->
  (nth 0 (strings.Split cmd ":") EmptyString = EmptyString -> from = 0)
  /\ (nth 1 (strings.Split cmd ":") EmptyString = EmptyString ->
      to = Int.MaxInt64
      /\ forall elems, Z.of_nat (List.length elems) <= Int.MaxInt64 ->
           sliceSpec elems from to step
           = sliceSpec elems from (Z.of_nat (List.length elems)) step)
  /\ (List.length (strings.Split cmd ":") = 2%nat
      \/ nth 2 (strings.Split cmd ":") EmptyString = EmptyString -> step = 1)
  /\ (step <> 0 ->
      Forall (fun element => IsArray element = true ->
                wellIndexed element /\ (List.length (inheritors element) < fuel)%nat)
             result ->
      command fuel root i cmd result
      = Some (inr (flat_map (fun element =>
                     if IsArray element
                     then sliceResult (inheritors element) from to step
                     else []) result)))
  /\ (forall elems,
        (0 < step -> 0 <= from ->
         sliceResult elems from to step = sliceSpec elems from to step)
        /\ (step = 1 -> 0 <= from ->
            sliceResult elems from to step
            = firstn (Z.to_nat (to - from)) (skipn (Z.to_nat from) elems))
        /\ (0 < step -> from < 0 -> sliceResult elems from to step = [])
        /\ (step < 0 -> 0 <= from < to -> from < Z.of_nat (List.length elems) ->
            sliceResult elems from to step = sliceDownSpec elems from step)
        /\ (step = -1 -> 0 <= from < to -> from < Z.of_nat (List.length elems) ->
            sliceResult elems from to step = rev (firstn (S (Z.to_nat from)) elems))
        /\ (step < 0 ->
            from < 0 \/ to <= from \/ Z.of_nat (List.length elems) <= from ->
            sliceResult elems from to step = []))
  /\ (forall data,
        returned (JSONPath (parsesTo doc_array) 6 data "$.a[1:3]")
          = Some ([num 20; num 30], None)
        /\ returned (JSONPath (parsesTo doc_array) 6 data "$.a[1:]")
          = Some ([num 20; num 30; num 40; num 50], None)
        /\ returned (JSONPath (parsesTo doc_array) 6 data "$.a[:2]")
          = Some ([num 10; num 20], None)).
Proof.
  intros Hc Hb.
  pose proof (sliceBounds_in_range _ _ _ _ Hb) as (_ & Rt & _).
  pose proof (sliceBounds_step_range _ _ _ _ Hb) as Rs.
  destruct (Split_Contains cmd ":" Hc) as (k0 & k1 & tail & Hk).
  assert (Hcmd : forall res,
            command fuel root i cmd res
            = option_map inr (sliceRange fuel res from to step [])).
  { intros res. rewrite command_slice by assumption. now rewrite Hb. }
  rewrite Hk in Hb |- *.
  destruct (sliceBounds_defaults k0 k1 tail from to step Hb) as (D0 & D1 & D2).
  split; [exact D0|]. split; [|split; [|split; [|split]]].
  - intros H1. simpl in H1. specialize (D1 H1). split; [exact D1|].
    intros elems Hl. unfold sliceSpec, sliceCount. rewrite D1.
    now rewrite Z.min_r, Z.min_id by lia.
  - intros [H2|H2]; apply D2.
    + left. simpl in H2. destruct tail; [reflexivity|discriminate].
    + right. exact H2.
  - intros Hs Hall. rewrite Hcmd.
    rewrite (sliceRange_pointwise fuel from to step
               (fun element => sliceResult (inheritors element) from to step));
      [reflexivity|].
    intros element acc He Ha.
    destruct (proj1 (Forall_forall _ _) Hall element He Ha) as [Hw Hl].
    now apply sliceLoop_sliceResult.
  - intros elems. unfold sliceResult. repeat split.
    + intros Pos H0.
      replace (0 <? step) with true by (symmetry; apply Z.ltb_lt; lia).
      now replace (0 <=? from) with true by (symmetry; apply Z.leb_le; lia).
    + intros -> H0. cbn [Z.ltb Z.compare].
      replace (0 <=? from) with true by (symmetry; apply Z.leb_le; lia).
      now apply (sliceSpec_segment elems to _ from H0 eq_refl).
    + intros Pos H0.
      replace (0 <? step) with true by (symmetry; apply Z.ltb_lt; lia).
      now replace (0 <=? from) with false by (symmetry; apply Z.leb_gt; lia).
    + intros Neg H0 Hl.
      replace (0 <? step) with false by (symmetry; apply Z.ltb_ge; lia).
      replace (step <? 0) with true by (symmetry; apply Z.ltb_lt; lia).
      replace (0 <=? from) with true by (symmetry; apply Z.leb_le; lia).
      replace (from <? to) with true by (symmetry; apply Z.ltb_lt; lia).
      now replace (from <? Z.of_nat (List.length elems)) with true
        by (symmetry; apply Z.ltb_lt; lia).
    + intros -> H0 Hl. cbn [Z.ltb Z.compare].
      replace (0 <=? from) with true by (symmetry; apply Z.leb_le; lia).
      replace (from <? to) with true by (symmetry; apply Z.ltb_lt; lia).
      replace (from <? Z.of_nat (List.length elems)) with true
        by (symmetry; apply Z.ltb_lt; lia).
      cbn [andb]. rewrite <- (Z2Nat.id from) at 1 by lia.
      apply sliceDownSpec_reverse. lia.
    + intros Neg H.
      replace (0 <? step) with false by (symmetry; apply Z.ltb_ge; lia).
      replace (step <? 0) with true by (symmetry; apply Z.ltb_lt; lia).
      destruct H as [H|[H|H]].
      * now replace (0 <=? from) with false by (symmetry; apply Z.leb_gt; lia).
      * replace (from <? to) with false by (symmetry; apply Z.ltb_ge; lia).
        now rewrite andb_false_r.
      * replace (from <? Z.of_nat (List.length elems)) with false
          by (symmetry; apply Z.ltb_ge; lia).
        now rewrite andb_false_r.
  - intros data. repeat split; vm_compute; reflexivity.
Qed.

Lemma C4_slice_nonzero_step_witness :
  strings.Contains "3:9:-2" ":" = true
  /\ sliceBounds (strings.Split "3:9:-2" ":") = inr (3, 9, -2)
  /\ command 6 doc_array 2 "3:9:-2"
       [num 0; mkArray [num 10; num 20; num 30; num 40; num 50]]
     = Some (inr [num 40; num 20])
  /\ command 6 doc_array 2 "1:4:2"
       [num 0; mkArray [num 10; num 20; num 30; num 40; num 50]]
     = Some (inr [num 20; num 40]).
Proof.
  assert (W : Forall (fun element => IsArray element = true ->
                wellIndexed element /\ (List.length (inheritors element) < 6)%nat)
               [num 0; mkArray [num 10; num 20; num 30; num 40; num 50]]).
  { constructor; [discriminate|]. constructor; [|constructor]. intros _.
    split; [apply mkArray_wellIndexed|]. rewrite inheritors_mkArray. simpl. lia. }
  split; [reflexivity|]. split; [reflexivity|]. split.
  - destruct (C4_slice_nonzero_step 6 doc_array 2 "3:9:-2"
                [num 0; mkArray [num 10; num 20; num 30; num 40; num 50]] 3 9 (-2)
                eq_refl eq_refl) as (_ & _ & _ & H & _).
    rewrite H; [reflexivity|lia|exact W].
  - destruct (C4_slice_nonzero_step 6 doc_array 2 "1:4:2"
                [num 0; mkArray [num 10; num 20; num 30; num 40; num 50]] 1 4 2
                eq_refl eq_refl) as (_ & _ & _ & H & _).
    rewrite H; [reflexivity|lia|exact W].
Defined.
